(** * qsub.py: job handles and the cohort monitor

    A shallow embedding of [src/qsub.py]: the regular expressions used by
    [Job.get_job] and [Job.get_status], the [job_state_key] table, the
    [Job] methods and [monitor_jobs], followed by the properties of the
    specification that concern them. *)

From Stdlib Require Import Ascii String List Arith Lia.
From stdpp Require Import base option list gmap strings.

Local Open Scope string_scope.
Local Open Scope list_scope.
Local Open Scope nat_scope.

(** ** The fragment of Python's [re] that the module uses

    The patterns of [get_job] and [get_status] are sequences of anchors,
    single characters, greedy stars over a character class and one capturing
    group [([a-zA-Z]+)]. A character is a code point below 256 of a [str] of
    Python 3 (the source is written for Python 2 and 3); [\s] and
    [str.split()] take as whitespace what [str.isspace] accepts: the
    characters 9 to 13, 28 to 32, 133 and 160. *)
Module PyRe.

Inductive cclass : Type :=
  | CDot                 (* .        : any character but a newline *)
  | CSpace               (* \s       *)
  | CAlpha               (* [a-zA-Z] *)
  | CChar (c : ascii).   (* a literal character *)

Inductive atom : Type :=
  | ABol                       (* ^ under re.MULTILINE *)
  | AEol                       (* $ under re.MULTILINE *)
  | AOne (k : cclass)          (* one character of the class *)
  | AStar (k : cclass)         (* k*, greedy *)
  | AGroupPlus (k : cclass).   (* (k+), greedy, capturing group 1 *)

Definition regex : Type := list atom.

Definition newline : ascii := ascii_of_nat 10.

Definition is_space (c : ascii) : bool :=
  let n := nat_of_ascii c in
  ((9 <=? n) && (n <=? 13)) || ((28 <=? n) && (n <=? 32))
  || (n =? 133) || (n =? 160).

Definition is_alpha (c : ascii) : bool :=
  let n := nat_of_ascii c in
  ((65 <=? n) && (n <=? 90)) || ((97 <=? n) && (n <=? 122)).

Definition cmatch (k : cclass) (c : ascii) : bool :=
  match k with
  | CDot => negb (Ascii.eqb c newline)
  | CSpace => is_space c
  | CAlpha => is_alpha c
  | CChar d => Ascii.eqb c d
  end.

(** [^] matches at the start of the text and after each newline; [$] at the
    end of the text and before each newline. [prev] is the character just
    before the current position. *)
Definition at_bol (prev : option ascii) : bool :=
  match prev with
  | None => true
  | Some c => Ascii.eqb c newline
  end.

Definition at_eol (s : list ascii) : bool :=
  match s with
  | [] => true
  | c :: _ => Ascii.eqb c newline
  end.

(** The outcome of a match: the number of characters consumed and the text
    of group 1, if the group took part. *)
Definition outcome : Type := nat * option (list ascii).

(** Greedy star: take one more character when possible, and give it back
    when the rest of the pattern then fails (backtracking). *)
Fixpoint star (k : cclass)
    (cont : option ascii -> list ascii -> nat -> option outcome)
    (prev : option ascii) (s : list ascii) (n : nat) : option outcome :=
  match s with
  | c :: s' =>
      if cmatch k c then
        match star k cont (Some c) s' (S n) with
        | Some r => Some r
        | None => cont prev s n
        end
      else cont prev s n
  | [] => cont prev s n
  end.

(** The same inside the capturing group: [acc] is the text captured so far. *)
Fixpoint star_cap (k : cclass)
    (cont : list ascii -> option ascii -> list ascii -> nat -> option outcome)
    (acc : list ascii) (prev : option ascii) (s : list ascii) (n : nat)
    : option outcome :=
  match s with
  | c :: s' =>
      if cmatch k c then
        match star_cap k cont (acc ++ [c]) (Some c) s' (S n) with
        | Some r => Some r
        | None => cont acc prev s n
        end
      else cont acc prev s n
  | [] => cont acc prev s n
  end.

(** Match [r] at the current position; [n] characters were consumed before. *)
Fixpoint rmatch (r : regex) (cap : option (list ascii))
    (prev : option ascii) (s : list ascii) (n : nat) {struct r}
    : option outcome :=
  match r with
  | [] => Some (n, cap)
  | ABol :: r' => if at_bol prev then rmatch r' cap prev s n else None
  | AEol :: r' => if at_eol s then rmatch r' cap prev s n else None
  | AOne k :: r' =>
      match s with
      | c :: s' => if cmatch k c then rmatch r' cap (Some c) s' (S n) else None
      | [] => None
      end
  | AStar k :: r' => star k (rmatch r' cap) prev s n
  | AGroupPlus k :: r' =>
      match s with
      | c :: s' =>
          if cmatch k c
          then star_cap k (fun acc => rmatch r' (Some acc)) [c] (Some c) s' (S n)
          else None
      | [] => None
      end
  end.

(** [re.search]: the match at the leftmost position that has one. *)
Fixpoint search_from (r : regex) (prev : option ascii) (s : list ascii)
    : option outcome :=
  match rmatch r None prev s 0 with
  | Some o => Some o
  | None =>
      match s with
      | c :: s' => search_from r (Some c) s'
      | [] => None
      end
  end.

Definition search (r : regex) (s : list ascii) : option outcome :=
  search_from r None s.

(** [re.findall] for a pattern without groups: the texts of the successive
    non-overlapping matches, left to right. [skip] counts the characters of
    the current match still to step over. The patterns of this module never
    match the empty text, so a match of length 0 is not recorded. *)
Fixpoint findall_from (r : regex) (prev : option ascii) (s : list ascii)
    (skip : nat) : list (list ascii) :=
  let here :=
    match skip with
    | 0 => rmatch r None prev s 0
    | S _ => None
    end in
  match here, s with
  | Some (S m, _), c :: s' => take (S m) s :: findall_from r (Some c) s' m
  | _, c :: s' => findall_from r (Some c) s' (pred skip)
  | _, [] => []
  end.

Definition findall (r : regex) (s : list ascii) : list (list ascii) :=
  findall_from r None s 0.

(** A text spliced into a pattern by [str.format], for a text without
    regular-expression metacharacters (scheduler identifiers are decimal). *)
Definition literal (s : list ascii) : regex :=
  map (fun c => AOne (CChar c)) s.

End PyRe.

(** ** [str] of a list of strings *)
Module PyStr.

Definition quote : ascii := "'"%char.
Definition dquote : ascii := ascii_of_nat 34.
Definition backslash : ascii := ascii_of_nat 92.

Definition hex_digit (n : nat) : ascii :=
  if n <? 10 then ascii_of_nat (48 + n) else ascii_of_nat (87 + n).

(** One character of [repr(s)] between quotes [q]: a character that is not
    printable ([str.isprintable]: below 32, from 127 to 160, and 173) is
    written as an escape. *)
Definition repr_char (q c : ascii) : list ascii :=
  let n := nat_of_ascii c in
  if Ascii.eqb c backslash || Ascii.eqb c q then [backslash; c]
  else if n =? 9 then [backslash; "t"%char]
  else if n =? 10 then [backslash; "n"%char]
  else if n =? 13 then [backslash; "r"%char]
  else if (n <? 32) || ((127 <=? n) && (n <=? 160)) || (n =? 173)
       then [backslash; "x"%char; hex_digit (n / 16); hex_digit (n mod 16)]
  else [c].

Definition has_char (c : ascii) (s : list ascii) : bool :=
  existsb (Ascii.eqb c) s.

(** [repr] of a string: single quotes, unless the text holds a single quote
    and no double quote. *)
Definition repr (s : list ascii) : list ascii :=
  let q := if has_char quote s && negb (has_char dquote s)
           then dquote else quote in
  q :: concat (map (repr_char q) s) ++ [q].

Fixpoint join (sep : list ascii) (l : list (list ascii)) : list ascii :=
  match l with
  | [] => []
  | [x] => x
  | x :: l' => x ++ sep ++ join sep l'
  end.

(** [str(entry)] for [entry] a list of strings. *)
Definition str_list (l : list (list ascii)) : list ascii :=
  "["%char :: join [","%char; " "%char] (map repr l) ++ ["]"%char].

End PyStr.

Definition chars (s : string) : list ascii := list_ascii_of_string s.
Definition text (l : list ascii) : string := string_of_list_ascii l.

(** ** The state table

    [job_state_key] is a [defaultdict(lambda: None)] with five entries. A value
    is a Python string or [None]; [None] is the state the specification calls
    Unknown. *)
Abbreviation state_table := (gmap string (option string)).

Definition job_state_key : state_table :=
  <["dr" := None]> (<["t" := None]> (<["qw" := Some "Waiting"]>
    (<["r" := Some "Running"]> (<["Eqw" := Some "Error"]> ∅)))).

(** [d[k]] on a [defaultdict]: a missing key is given the value of the default
    factory, which is stored in the table and returned. *)
Definition defaultdict_getitem (d : state_table) (k : string)
    : option string * state_table :=
  match d !! k with
  | Some v => (v, d)
  | None => (None, <[k := None]> d)
  end.

(** [str(status)] for [status] a string or [None]. *)
Definition py_str (status : option string) : string :=
  match status with
  | Some s => s
  | None => "None"
  end.

(** [Job.get_state], state passing over the table it is given. *)
Definition get_state (status : option string) (job_state_key : state_table)
    : option string * state_table :=
  defaultdict_getitem job_state_key (py_str status).

(** [state in ['Running']] and [state in ['Error']]; the table the methods are
    also given is not used by them. *)
Definition get_is_running (state : option string) : bool :=
  bool_decide (state = Some "Running").

Definition get_is_error (state : option string) : bool :=
  bool_decide (state = Some "Error").

(** ** Patterns of [get_job] and [get_status] *)
Definition job_pattern (id : string) : PyRe.regex :=
  [PyRe.ABol; PyRe.AStar PyRe.CSpace] ++ PyRe.literal (chars id)
  ++ [PyRe.AOne PyRe.CSpace; PyRe.AStar PyRe.CDot; PyRe.AEol].

Definition status_pattern (id : string) : PyRe.regex :=
  [PyRe.ABol; PyRe.AStar PyRe.CDot; PyRe.AStar PyRe.CSpace]
  ++ PyRe.literal (chars id)
  ++ [PyRe.AStar PyRe.CDot; PyRe.AOne PyRe.CSpace; PyRe.AGroupPlus PyRe.CAlpha;
      PyRe.AOne PyRe.CSpace; PyRe.AStar PyRe.CDot; PyRe.AEol].

(** [re.findall(job_id_pattern, str(qstat_stdout), re.MULTILINE)] *)
Definition find_entries (id : string) (qstat_stdout : string) : list string :=
  map text (PyRe.findall (job_pattern id) (chars qstat_stdout)).

(** [re.search(job_id_pattern, str(entry), re.MULTILINE)] and the [group(1)]
    of the match, [None] without a match. *)
Definition parse_status (id : string) (entry : list string) : option string :=
  match PyRe.search (status_pattern id) (PyStr.str_list (map chars entry)) with
  | Some (_, Some g) => Some (text g)
  | _ => None
  end.

(** ** Objects, the world and its events *)

(** An attribute of a [Job] is unset until [_update] or [_debug_update]
    assigns it: [unset] is the absence of the attribute, not Python's [None]. *)
Definition attr (A : Type) : Type := option A.
Definition unset {A : Type} : attr A := None.

Record job : Type := Job {
  id : string;
  name : option string;
  qstat_stdout : attr string;
  entry : attr (list string);
  status : attr (option string);
  state : attr (option string);
  is_running : attr bool;
  is_error : attr bool;
  is_present : attr bool
}.

Definition handle : Type := nat.

Inductive log_message : Type :=
  | NoJobsToMonitor
  | JobsNotAList
  | MonitoringJobs (num_jobs : nat)
  | NumberOfJobs (num_jobs : nat)
  | NoJobsRemaining
  | JobsLeftInError (n : nat) (ids : list string)
  | KillingJobs
  | CommandOutput.

Inductive log_level : Type := LDebug | LInfo | LError.

Inductive event : Type :=
  | EvQstat (k : nat)                      (* the k-th call of [qstat()] *)
  | EvPresent (h : handle) (b : bool)      (* [job.present()] returned [b] *)
  | EvError (h : handle) (b : bool)        (* [job.error()] returned [b] *)
  | EvLog (l : log_level) (m : log_message)
  | EvSleep (seconds : nat)
  | EvCancel (command : string).           (* [t.SubprocessCmd(command).run()] *)

Record world : Type := World {
  qstat_calls : nat;             (* calls of [qstat()] made so far *)
  table : state_table;           (* the global [job_state_key] *)
  heap : gmap handle job;        (* the [Job] objects *)
  jobs_list : list handle;       (* the list object the caller passes as [jobs] *)
  trace : list event
}.

Inductive exn : Type :=
  | TypeError | ValueError | IndexError | AttributeError
  | NoSuchObject.   (* a handle without its object: no Python reference is *)

Inductive res (A : Type) : Type :=
  | Ok (a : A)
  | Raise (e : exn)
  | Diverge.        (* the fuel of a loop ran out *)
Arguments Ok {A} a.
Arguments Raise {A} e.
Arguments Diverge {A}.

Definition M (A : Type) : Type := world -> res A * world.

Definition ret {A : Type} (a : A) : M A := fun w => (Ok a, w).

Definition bind {A B : Type} (m : M A) (k : A -> M B) : M B :=
  fun w =>
    match m w with
    | (Ok a, w') => k a w'
    | (Raise e, w') => (Raise e, w')
    | (Diverge, w') => (Diverge, w')
    end.

Definition raise {A : Type} (e : exn) : M A := fun w => (Raise e, w).

(** [x ← m; k] and [m ;; k] are stdpp's notations for [bind]. *)
#[global] Instance M_ret : MRet M := @ret.
#[global] Instance M_bind : MBind M := fun A B k m => bind m k.

Definition emit (e : event) : M unit :=
  fun w => (Ok tt, World (qstat_calls w) (table w) (heap w) (jobs_list w)
                         (trace w ++ [e])).

Definition get_jobs : M (list handle) := fun w => (Ok (jobs_list w), w).

Definition set_jobs (l : list handle) : M unit :=
  fun w => (Ok tt, World (qstat_calls w) (table w) (heap w) l (trace w)).

Definition read (h : handle) : M job :=
  fun w =>
    match heap w !! h with
    | Some j => (Ok j, w)
    | None => (Raise NoSuchObject, w)
    end.

Definition write (h : handle) (j : job) : M unit :=
  fun w => (Ok tt, World (qstat_calls w) (table w) (<[h := j]> (heap w))
                         (jobs_list w) (trace w)).

(** Read an attribute that must have been assigned. *)
Definition getattr {A : Type} (a : attr A) : M A :=
  match a with
  | Some v => ret v
  | None => raise AttributeError
  end.

Definition diverge {A : Type} : M A := fun w => (Diverge, w).

Definition set_qstat_stdout (v : string) (j : job) : job :=
  Job (id j) (name j) (Some v) (entry j) (status j) (state j)
      (is_running j) (is_error j) (is_present j).
Definition set_entry (v : list string) (j : job) : job :=
  Job (id j) (name j) (qstat_stdout j) (Some v) (status j) (state j)
      (is_running j) (is_error j) (is_present j).
Definition set_status (v : option string) (j : job) : job :=
  Job (id j) (name j) (qstat_stdout j) (entry j) (Some v) (state j)
      (is_running j) (is_error j) (is_present j).
Definition set_state (v : option string) (j : job) : job :=
  Job (id j) (name j) (qstat_stdout j) (entry j) (status j) (Some v)
      (is_running j) (is_error j) (is_present j).
Definition set_is_running (v : bool) (j : job) : job :=
  Job (id j) (name j) (qstat_stdout j) (entry j) (status j) (state j)
      (Some v) (is_error j) (is_present j).
Definition set_is_error (v : bool) (j : job) : job :=
  Job (id j) (name j) (qstat_stdout j) (entry j) (status j) (state j)
      (is_running j) (Some v) (is_present j).
Definition set_is_present (v : bool) (j : job) : job :=
  Job (id j) (name j) (qstat_stdout j) (entry j) (status j) (state j)
      (is_running j) (is_error j) (Some v).

(** [self.a = v] *)
Definition setattr (h : handle) (f : job -> job) : M unit :=
  j ← read h ; write h (f j).

(** [not x] for [x] a string or [None], and for [x] a list or [None]. *)
Definition not_str (x : option string) : bool :=
  match x with
  | Some s => bool_decide (s = "")
  | None => true
  end.

Definition not_list {A : Type} (x : option (list A)) : bool :=
  match x with
  | Some (_ :: _) => false
  | _ => true
  end.

(** ** The [Job] methods

    [qstat_output k] is what the [k]-th call of the scheduler's [qstat]
    prints: the scheduler is outside the program and may answer each call
    differently. The result of [sh]'s [qstat()] is falsy when its text is
    empty, as a string is. *)
Section Scheduler.

Variable qstat_output : nat -> string.

Definition qstat : M string :=
  fun w =>
    (Ok (qstat_output (qstat_calls w)),
     World (S (qstat_calls w)) (table w) (heap w) (jobs_list w)
           (trace w ++ [EvQstat (qstat_calls w)])).

Definition get_job (id : string) (qstat_stdout : option string)
    : M (list string) :=
  out ← (if not_str qstat_stdout then qstat
          else ret (default "" qstat_stdout)) ;
  ret (find_entries id out).

Definition get_status (id : string) (entry : option (list string))
    (qstat_stdout : option string) : M (option string) :=
  e ← (if not_list entry then get_job id qstat_stdout
        else ret (default [] entry)) ;
  ret (parse_status id e).

(** [get_state] on the table every [Job] shares: [self.job_state_key] is the
    global [job_state_key] object itself. *)
Definition get_state_shared (status : option string) : M (option string) :=
  fun w =>
    let (v, d) := get_state status (table w) in
    (Ok v, World (qstat_calls w) d (heap w) (jobs_list w) (trace w)).

Definition get_is_present (id : string) (entry : option (list string))
    (qstat_stdout : option string) : M bool :=
  e ← (if not_list entry then get_job id qstat_stdout
        else ret (default [] entry)) ;
  ret (negb (not_list (Some e))).

Definition _update (self : handle) : M unit :=
  out ← qstat ;
  setattr self (set_qstat_stdout out) ;;
  j ← read self ;
  e ← get_job (id j) (qstat_stdout j) ;
  setattr self (set_entry e) ;;
  j ← read self ;
  s ← get_status (id j) (entry j) (qstat_stdout j) ;
  setattr self (set_status s) ;;
  j ← read self ;
  s ← getattr (status j) ;
  st ← get_state_shared s ;
  setattr self (set_state st) ;;
  j ← read self ;
  st ← getattr (state j) ;
  setattr self (set_is_running (get_is_running st)) ;;
  j ← read self ;
  st ← getattr (state j) ;
  setattr self (set_is_error (get_is_error st)) ;;
  j ← read self ;
  p ← get_is_present (id j) (entry j) (qstat_stdout j) ;
  setattr self (set_is_present p).

Definition _debug_update (self : handle) (qstat_stdout' : string) : M unit :=
  setattr self (set_qstat_stdout qstat_stdout') ;;
  j ← read self ;
  e ← get_job (id j) (qstat_stdout j) ;
  setattr self (set_entry e) ;;
  j ← read self ;
  s ← get_status (id j) (entry j) (qstat_stdout j) ;
  setattr self (set_status s) ;;
  j ← read self ;
  s ← getattr (status j) ;
  st ← get_state_shared s ;
  setattr self (set_state st) ;;
  j ← read self ;
  st ← getattr (state j) ;
  setattr self (set_is_running (get_is_running st)) ;;
  j ← read self ;
  p ← get_is_present (id j) (entry j) (qstat_stdout j) ;
  setattr self (set_is_present p).

(** [Job(id, name, debug)]: a new object; refreshed unless [debug]. *)
Definition Job_init (id' : string) (name' : option string) (debug : bool)
    : M handle :=
  fun w =>
    let self := fresh (dom (heap w)) in
    (write self (Job id' name' unset unset unset unset unset unset unset) ;;
     (if debug then ret tt else _update self) ;;
     ret self) w.

Definition running (self : handle) : M bool :=
  _update self ;;
  j ← read self ;
  getattr (is_running j).

Definition error (self : handle) : M bool :=
  _update self ;;
  j ← read self ;
  b ← getattr (is_error j) ;
  emit (EvError self b) ;;
  ret b.

Definition present (self : handle) : M bool :=
  _update self ;;
  j ← read self ;
  b ← getattr (is_present j) ;
  emit (EvPresent self b) ;;
  ret b.

(** ** [monitor_jobs] *)

(** What a caller may pass as [jobs]: [None], the list object [jobs_list] of
    the world, or an object that is not a list, of which the function uses the
    truth value and [len] ([None] for an object without [__len__]). *)
Inductive pyvalue : Type :=
  | PyNone
  | PyList
  | PyOther (truth : bool) (len : option nat).

Definition py_not (jobs : pyvalue) : M bool :=
  match jobs with
  | PyNone => ret true
  | PyList => l ← get_jobs ; ret (bool_decide (l = []))
  | PyOther t _ => ret (negb t)
  end.

Definition py_len (jobs : pyvalue) : M nat :=
  match jobs with
  | PyList => l ← get_jobs ; ret (length l)
  | PyOther _ (Some n) => ret n
  | _ => raise TypeError
  end.

Definition isinstance_list (jobs : pyvalue) : bool :=
  match jobs with
  | PyList => true
  | _ => false
  end.

(** [l.remove(x)]: the first element equal to [x]; objects are compared by
    identity. *)
Fixpoint remove_first (x : handle) (l : list handle) : option (list handle) :=
  match l with
  | [] => None
  | y :: l' =>
      if bool_decide (x = y) then Some l'
      else option_map (cons y) (remove_first x l')
  end.

Definition list_remove (x : handle) : M unit :=
  l ← get_jobs ;
  match remove_first x l with
  | Some l' => set_jobs l'
  | None => raise ValueError
  end.

(** [l.pop(i)] *)
Definition list_pop (i : nat) : M handle :=
  l ← get_jobs ;
  match l !! i with
  | Some x => set_jobs (delete i l) ;; ret x
  | None => raise IndexError
  end.

(** [for i, job in enumerate(jobs): ...], lines 279 to 283. The iterator of a
    list holds an index and stops when the index reaches the current length;
    [i] is that index, which is also the count of [enumerate]. [n] bounds the
    number of iterations left. *)
Fixpoint for_jobs (n : nat) (i : nat) (err_jobs : list handle)
    : M (list handle) :=
  l ← get_jobs ;
  match l !! i with
  | None => ret err_jobs
  | Some job =>
      match n with
      | 0 => diverge
      | S n' =>
          p ← present job ;
          (if negb p then list_remove job else ret tt) ;;
          e ← error job ;
          err_jobs' ← (if (e : bool) return M (list handle)
                        then x ← list_pop i ; ret (err_jobs ++ [x])
                        else ret err_jobs) ;
          for_jobs n' (S i) err_jobs'
      end
  end.

(** One poll cycle: the [for] loop over the list as it is when the cycle
    starts. *)
Definition poll_cycle (err_jobs : list handle) : M (list handle) :=
  l ← get_jobs ;
  for_jobs (length l) 0 err_jobs.

(** [while num_jobs > 0: ...], lines 273 to 284; [fuel] bounds the cycles. *)
Fixpoint while_jobs (fuel : nat) (num_jobs : nat) (err_jobs : list handle)
    : M (list handle) :=
  if 0 <? num_jobs then
    match fuel with
    | 0 => diverge
    | S fuel' =>
        l ← get_jobs ;
        num_jobs' ← (if negb (num_jobs =? length l) return M nat
                      then emit (EvLog LDebug (NumberOfJobs (length l))) ;;
                           ret (length l)
                      else ret num_jobs) ;
        err_jobs' ← poll_cycle err_jobs ;
        emit (EvSleep 5) ;;
        while_jobs fuel' num_jobs' err_jobs'
    end
  else ret err_jobs.

(** [[job.id for job in err_jobs]] *)
Fixpoint job_ids (l : list handle) : M (list string) :=
  match l with
  | [] => ret []
  | h :: l' => j ← read h ; r ← job_ids l' ; ret (id j :: r)
  end.

(** Lines 287 to 295. The command is run by [SubprocessCmd] of the module
    [tools], the cancellation collaborator: the call is the event
    [EvCancel]. *)
Definition kill_err_jobs (err_jobs : list handle) (kill_err : bool) : M unit :=
  if negb (bool_decide (err_jobs = [])) then
    ids ← job_ids err_jobs ;
    emit (EvLog LError (JobsLeftInError (length err_jobs) ids)) ;;
    if kill_err then
      emit (EvLog LDebug KillingJobs) ;;
      ids ← job_ids err_jobs ;
      emit (EvCancel ("qdel " +:+ String.concat " " ids)) ;;
      emit (EvLog LDebug CommandOutput)
    else ret tt
  else ret tt.

(** The monitoring run proper, lines 269 to 285: returns [err_jobs]. *)
Definition monitor_loop (fuel : nat) : M (list handle) :=
  l ← get_jobs ;
  emit (EvLog LInfo (MonitoringJobs (length l))) ;;
  err_jobs ← while_jobs fuel (length l) [] ;
  emit (EvLog LInfo NoJobsRemaining) ;;
  ret err_jobs.

Definition monitor_jobs (fuel : nat) (jobs : pyvalue) (kill_err : bool)
    : M unit :=
  nj ← py_not jobs ;
  invalid ← (if (nj : bool) return M bool then ret true
              else n ← py_len jobs ; ret (n <? 1)) ;
  if (invalid : bool) then emit (EvLog LError NoJobsToMonitor)
  else if negb (isinstance_list jobs) then emit (EvLog LError JobsNotAList)
  else
    err_jobs ← monitor_loop fuel ;
    kill_err_jobs err_jobs kill_err.

End Scheduler.

(** ** The classifier of the specification

    The table of section 4.2, word for word, to be compared with
    [get_state]. *)
Inductive LifecycleState : Type := Running | Waiting | Error | Unknown.

Definition spec_classify (token : option string) : LifecycleState :=
  match token with
  | None => Unknown
  | Some t =>
      if decide (t = "r") then Running
      else if decide (t = "qw") then Waiting
      else if decide (t = "Eqw") then Error
      else if decide (t = "t") then Unknown
      else if decide (t = "dr") then Unknown
      else Unknown
  end.

(** The value the code uses for each state: a string, or [None]. *)
Definition state_value (s : LifecycleState) : option string :=
  match s with
  | Running => Some "Running"
  | Waiting => Some "Waiting"
  | Error => Some "Error"
  | Unknown => None
  end.

(** The table after the statuses [earlier] have been classified, in order. *)
Definition table_after (earlier : list (option string)) : state_table :=
  fold_left (fun d s => snd (get_state s d)) earlier job_state_key.

(** What a table answers for a key, stored or by default. *)
Definition answer (d : state_table) (k : string) : option string :=
  default None (d !! k).

(** ** Predicates of the statements *)

(** [keeps R m]: running [m] from any world leads to a world related to it
    by [R], however [m] ends. *)
Definition keeps (R : relation world) {A : Type} (m : M A) : Prop :=
  forall w, R w (snd (m w)).

(** [returns m]: [m] never runs out of fuel. *)
Definition returns {A : Type} (m : M A) : Prop :=
  forall w, (m w).1 <> Diverge.

(** The commands handed to the cancellation collaborator, in order. *)
Definition cancels (evs : list event) : list string :=
  omap (fun e => match e with EvCancel c => Some c | _ => None end) evs.

(** The list object holds the same handles. *)
Definition same_jobs : relation world :=
  fun w w' => jobs_list w' = jobs_list w.

(** The list object has not grown. *)
Definition not_longer : relation world :=
  fun w w' => length (jobs_list w') <= length (jobs_list w).

(** Events were added to the trace, none of them a cancellation. *)
Definition no_cancel : relation world :=
  fun w w' => exists evs, trace w' = trace w ++ evs /\ cancels evs = [].

(** [ids] are the identifiers of the objects behind the handles [l]. *)
Definition ids_of (hp : gmap handle job) (l : list handle) (ids : list string)
    : Prop :=
  Forall2 (fun h i => exists j, hp !! h = Some j /\ id j = i) l ids.

(** The character before the position reached after reading [a]. *)
Definition last_char (prev : option ascii) (a : list ascii) : option ascii :=
  match last a with
  | Some c => Some c
  | None => prev
  end.

(** Every character of [a] is in the class [k]. *)
Definition all_in (k : PyRe.cclass) (a : list ascii) : Prop :=
  Forall (fun c => PyRe.cmatch k c = true) a.

(** The pattern from the status column on: [\s([a-zA-Z]+)\s.*$]. *)
Definition status_tail : PyRe.regex :=
  [PyRe.AOne PyRe.CSpace; PyRe.AGroupPlus PyRe.CAlpha; PyRe.AOne PyRe.CSpace;
   PyRe.AStar PyRe.CDot; PyRe.AEol].

(** [s] starts with a token: a whitespace character, the letters [tok], a
    whitespace character. *)
Definition token_at (s tok : list ascii) : Prop :=
  exists w1 w2 post,
    s = w1 :: tok ++ w2 :: post /\
    PyRe.is_space w1 = true /\ PyRe.is_space w2 = true /\
    tok <> [] /\ all_in PyRe.CAlpha tok.

(** An entry of [get_job]: whitespace, the identifier, a whitespace character
    and the rest of the line. *)
Definition entry_of (i : string) (e : string) : Prop :=
  exists ws w rest,
    chars e = ws ++ chars i ++ w :: rest /\
    all_in PyRe.CSpace ws /\ PyRe.is_space w = true /\
    all_in PyRe.CDot rest.

(** The answer of [get_status] in the text [R] it searches: the token [tok]
    starts after an occurrence of the identifier, and no token starts at a
    later position. *)
Definition last_token_after (i R tok : list ascii) : Prop :=
  exists pre mid b,
    R = pre ++ i ++ mid ++ b /\
    token_at b tok /\
    forall x y tok', b = x ++ y -> x <> [] -> ~ token_at y tok'.

(** [[0-9]] *)
Definition is_digit (c : ascii) : bool :=
  let n := nat_of_ascii c in (48 <=? n) && (n <=? 57).

(** An identifier of letters and digits: spliced into a pattern, it stands
    for itself. *)
Definition plain_id (i : string) : bool :=
  forallb (fun c => PyRe.is_alpha c || is_digit c) (chars i).

(** ** Scenarios: listings of the scheduler and cohorts *)

Definition nl : string := String PyRe.newline "".

(** The two lines that open a listing. *)
Definition qstat_header : string :=
  "job-ID  prior   name       user         state submit/start at     queue                          slots ja-task-ID "
  +:+ nl +:+
  "-----------------------------------------------------------------------------------------------------------------"
  +:+ nl.

(** One line of the listing for job [i] in state [st], without and with its
    newline. *)
Definition qstat_entry (i st : string) : string :=
  "  " +:+ i +:+ " 0.50000 python     kellys04     " +:+ st
  +:+ "     06/01/2017 12:00:00 all.q@node1.local              1".

Definition qstat_row (i st : string) : string :=
  qstat_entry i st +:+ nl.

(** A listing with one line for each pair of an identifier and a state. *)
Definition listing (rows : list (string * string)) : string :=
  qstat_header +:+ String.concat "" (map (fun r => qstat_row r.1 r.2) rows).

(** An object whose attributes are still to be assigned. *)
Definition new_job (i : string) : job :=
  Job i None unset unset unset unset unset unset unset.

(** A world with no call made yet, the objects [jobs] at handles 0, 1, ...
    and the caller's list holding all of them in order. *)
Definition cohort (ids : list string) : world :=
  World 0 job_state_key
        (list_to_map (imap (fun k i => (k, new_job i)) ids))
        (seq 0 (length ids)) [].

(** Job 101 has left the queue, job 102 runs. *)
Definition only_102 : nat -> string :=
  fun _ => listing [("102", "r")].

(** The first listing misses job 101 (a listing that came back short); the
    second shows it in error, next to job 102, which runs. *)
Definition flicker_101 : nat -> string :=
  fun k => if k =? 1 then listing [("101", "Eqw"); ("102", "r")]
           else listing [("102", "r")].

(** Job 101 is stuck in error, job 102 runs for one cycle and leaves. *)
Definition stuck_101 : nat -> string :=
  fun k => if k <? 4 then listing [("101", "Eqw"); ("102", "r")]
           else listing [].

(** Two entries for job 101, the first in state [r], the second in [qw]. *)
Definition listed_twice : string :=
  listing [("101", "r"); ("101", "qw")].

(** ** Reading the answer of [qsub]: [get_job_ID_name] *)

(** [s.split()]: the maximal runs of characters that are not whitespace;
    [cur] is the run being read. *)
Fixpoint split_from (cur s : list ascii) : list (list ascii) :=
  match s with
  | [] => match cur with [] => [] | _ => [cur] end
  | c :: s' =>
      if PyRe.is_space c
      then match cur with
           | [] => split_from [] s'
           | _ => cur :: split_from [] s'
           end
      else split_from (cur ++ [c]) s'
  end.

Definition py_split (s : list ascii) : list (list ascii) := split_from [] s.

(** [re.sub] of line 201: an opening parenthesis and a double quote at the
    start of the text are removed; without [re.MULTILINE], [^] is the start of
    the text only. *)
Definition sub_open (s : list ascii) : list ascii :=
  match s with
  | a :: q :: s' =>
      if Ascii.eqb a "(" && Ascii.eqb q PyStr.dquote then s' else s
  | _ => s
  end.

(** [re.sub] of line 202: a double quote and a closing parenthesis at the end
    of the text are removed; without [re.MULTILINE], [$] is the end of the
    text, or the place before a newline that ends the text. *)
Definition sub_close (s : list ascii) : list ascii :=
  match reverse s with
  | a :: b :: r =>
      if Ascii.eqb a ")" && Ascii.eqb b PyStr.dquote then reverse r
      else
        match r with
        | c :: r' =>
            if Ascii.eqb a PyRe.newline && Ascii.eqb b ")"
               && Ascii.eqb c PyStr.dquote
            then reverse r' ++ [a] else s
        | [] => s
        end
  | _ => s
  end.

(** Lines 191 to 203. [l[2]] and [l[3]] raise [IndexError] out of range. *)
Definition get_job_ID_name (proc_stdout : string) : res (string * string) :=
  let proc_stdout_list := py_split (chars proc_stdout) in
  match proc_stdout_list !! 2 with
  | None => Raise IndexError
  | Some job_id =>
      match proc_stdout_list !! 3 with
      | None => Raise IndexError
      | Some job_name =>
          let job_name := sub_open job_name in
          let job_name := sub_close job_name in
          Ok (text job_id, text job_name)
      end
  end.

(** What [qsub] prints for a job it accepts. *)
Definition qsub_answer (job_id job_name : string) : string :=
  "Your job " +:+ job_id +:+ " (" +:+ text [PyStr.dquote] +:+ job_name
  +:+ text [PyStr.dquote] +:+ ") has been submitted".

(** No character of [s] is whitespace. *)
Definition no_space (s : string) : Prop :=
  Forall (fun c => PyRe.is_space c = false) (chars s).

(** ** The functions on identifiers (lines 361 to 449) *)

(** The patterns of [get_job_status], [check_job_status] and
    [check_job_absent]. *)
Definition old_status_pattern (job_id : string) : PyRe.regex :=
  [PyRe.ABol; PyRe.AStar PyRe.CDot] ++ PyRe.literal (chars job_id)
  ++ [PyRe.AStar PyRe.CDot; PyRe.AOne PyRe.CSpace; PyRe.AGroupPlus PyRe.CAlpha;
      PyRe.AOne PyRe.CSpace; PyRe.AStar PyRe.CDot; PyRe.AEol].

Definition desired_pattern (job_id desired_status : string) : PyRe.regex :=
  [PyRe.ABol; PyRe.AStar PyRe.CDot] ++ PyRe.literal (chars job_id)
  ++ [PyRe.AStar PyRe.CDot; PyRe.AOne PyRe.CSpace]
  ++ PyRe.literal (chars desired_status)
  ++ [PyRe.AOne PyRe.CSpace; PyRe.AStar PyRe.CDot; PyRe.AEol].

Definition listed_pattern (job_id : string) : PyRe.regex :=
  [PyRe.ABol; PyRe.AStar PyRe.CDot] ++ PyRe.literal (chars job_id)
  ++ [PyRe.AStar PyRe.CDot; PyRe.AEol].

Section Identifiers.

Variable qstat_output : nat -> string.

(** [get_job_status]: [.group(1)] on the result of [re.search], which is
    [None] without a match, raises [AttributeError]. *)
Definition get_job_status (job_id : string) (qstat_stdout : option string)
    : M (option string) :=
  out ← (if not_str qstat_stdout then qstat qstat_output
         else ret (default "" qstat_stdout)) ;
  match PyRe.search (old_status_pattern job_id) (chars out) with
  | Some (_, g) => ret (text <$> g)
  | None => raise AttributeError
  end.

Definition check_job_status (job_id desired_status : string) : M bool :=
  out ← qstat qstat_output ;
  let job_match :=
    PyRe.findall (desired_pattern job_id desired_status) (chars out) in
  ret (negb (bool_decide (job_match = []))).

Definition check_job_absent (job_id : string) : M bool :=
  out ← qstat qstat_output ;
  let job_match := PyRe.findall (listed_pattern job_id) (chars out) in
  ret (bool_decide (job_match = [])).

End Identifiers.

(** [i] occurs in [s]. *)
Definition occurs (i s : list ascii) : Prop :=
  exists pre post, s = pre ++ i ++ post.

(** [pre] ends a line, or is empty: a line starts after it. *)
Definition line_start (pre : list ascii) : Prop :=
  PyRe.at_bol (last_char None pre) = true.

(** On a line of [s], the identifier [i] is followed, further on that line, by
    a whitespace character, the text [st] and a whitespace character (the
    whitespace characters may be the ends of lines). *)
Definition followed_by (i st s : list ascii) : Prop :=
  exists pre a b w1 w2 rest,
    s = pre ++ a ++ i ++ b ++ w1 :: st ++ w2 :: rest /\
    line_start pre /\ all_in PyRe.CDot a /\ all_in PyRe.CDot b /\
    PyRe.is_space w1 = true /\ PyRe.is_space w2 = true.

(** A line of [s] starts with whitespace or nothing, then the identifier and a
    whitespace character. *)
Definition listed_first (i s : list ascii) : Prop :=
  exists pre ws w rest,
    s = pre ++ ws ++ i ++ w :: rest /\
    line_start pre /\ all_in PyRe.CSpace ws /\ PyRe.is_space w = true.

(** ** A handle after a refresh *)

(** The object [j] after [_update] against the listing [snapshot], the shared
    table being [d]. *)
Definition refreshed (j : job) (snapshot : string) (d : state_table) : job :=
  let e := find_entries (id j) snapshot in
  let s := parse_status (id j) e in
  let st := (get_state s d).1 in
  Job (id j) (name j) (Some snapshot) (Some e) (Some s) (Some st)
      (Some (get_is_running st)) (Some (get_is_error st))
      (Some (negb (bool_decide (e = [])))).


(** ** Relations kept by a whole run of the monitor *)

(** The list object lost handles at most: none was added, none moved. *)
Definition sub_jobs : relation world :=
  fun w w' => sublist (jobs_list w') (jobs_list w).

(** The same handles have objects, with the same identifiers. *)
Definition same_ids : relation world :=
  fun w w' => forall h, id <$> heap w' !! h = id <$> heap w !! h.

(** The shared table answers every key as before. *)
Definition same_answers : relation world :=
  fun w w' => forall k, answer (table w') k = answer (table w) k.

(** ** A queue the cohort has left *)



(** ** Waiting on identifiers (lines 402 to 468) *)

(** The texts these functions log. *)
Inductive wait_message : Type :=
  | WaitingForJob
  | JobStarted (job_id : string)
  | WaitingAllStart (job_id_list : list string)
  | AllAbsent (elapsed_time : Z)
  | AllStarted (elapsed_time : Z)
  | WaitingAllFinished (job_id_list : list string)
  | AllFinished (elapsed_time : Z).

(** How a call ends when it reads a local variable: with a value, or with the
    [UnboundLocalError] of a local that no assignment has reached. *)
Inductive finish (A : Type) : Type :=
  | Return (a : A)
  | UnboundLocalError.
Arguments Return {A} a.
Arguments UnboundLocalError {A}.

(** [[f(x) for x in l]]: every element is evaluated, in order. *)
Fixpoint comprehension {A B : Type} (f : A -> M B) (l : list A) : M (list B) :=
  match l with
  | [] => ret []
  | x :: l' => y ← f x ; r ← comprehension f l' ; ret (y :: r)
  end.

Definition py_all (l : list bool) : bool := forallb (fun b => b) l.

(** The world after [n] further queries. *)
Definition asked (n : nat) (w : world) : world :=
  World (qstat_calls w + n) (table w) (heap w) (jobs_list w)
        (trace w ++ (EvQstat <$> seq (qstat_calls w) n)).

Section Waiting.

Variable qstat_output : nat -> string.

(** The environment: the record the logger keeps of a text, the event a write
    to the console leaves ([sys.stdout.flush()] leaves none), and the time
    read from the clock. *)
Variable render : wait_message -> log_message.
Variable stdout_write : string -> event.
Variable clock : world -> Z.

Definition logger_debug (m : wait_message) : M unit :=
  emit (EvLog LDebug (render m)).

Definition now : M Z := fun w => (Ok (clock w), w).

(** The [while] loop of [wait_job_start], lines 408 to 411. *)
Fixpoint wait_job_start_loop (fuel : nat) (job_id : string) : M unit :=
  running ← check_job_status qstat_output job_id "r" ;
  if negb running then
    match fuel with
    | 0 => diverge
    | S fuel' =>
        emit (stdout_write ".") ;;
        emit (EvSleep 3) ;;
        wait_job_start_loop fuel' job_id
    end
  else ret tt.

(** [wait_job_start]: [True], or [None] where the function falls off its
    end. *)
Definition wait_job_start (fuel : nat) (job_id : string) (return_True : bool)
    : M (option bool) :=
  logger_debug WaitingForJob ;;
  wait_job_start_loop fuel job_id ;;
  running ← check_job_status qstat_output job_id "r" ;
  if (running : bool) then
    logger_debug (JobStarted job_id) ;;
    if return_True then ret (Some true) else ret None
  else ret None.

(** The [while] loop of [wait_all_jobs_start], lines 424 to 432: [inl b] when
    the body returns [b], [inr elapsed_time] when the condition ends the loop,
    [elapsed_time] being bound by the body only. *)
Fixpoint wait_all_jobs_start_loop (fuel : nat) (job_id_list : list string)
    (jobs_started : bool) (startTime : Z) (elapsed_time : option Z)
    : M (bool + option Z) :=
  running ← comprehension (fun job_id =>
                             check_job_status qstat_output job_id "r")
                          job_id_list ;
  if negb (py_all running) then
    match fuel with
    | 0 => diverge
    | S fuel' =>
        emit (stdout_write ".") ;;
        t ← now ;
        let elapsed_time := (t - startTime)%Z in
        absent ← comprehension (check_job_absent qstat_output) job_id_list ;
        if py_all absent then
          logger_debug (AllAbsent elapsed_time) ;;
          ret (inl jobs_started)
        else
          emit (EvSleep 2) ;;
          wait_all_jobs_start_loop fuel' job_id_list jobs_started startTime
                                   (Some elapsed_time)
    end
  else ret (inr elapsed_time).

Definition wait_all_jobs_start (fuel : nat) (job_id_list : list string)
    : M (finish bool) :=
  let jobs_started := false in
  startTime ← now ;
  logger_debug (WaitingAllStart job_id_list) ;;
  r ← wait_all_jobs_start_loop fuel job_id_list jobs_started startTime None ;
  match r with
  | inl b => ret (Return b)
  | inr None => ret UnboundLocalError
  | inr (Some elapsed_time) =>
      logger_debug (AllStarted elapsed_time) ;;
      running ← comprehension (fun job_id =>
                                 check_job_status qstat_output job_id "r")
                              job_id_list ;
      ret (Return (if py_all running then true else jobs_started))
  end.

(** The [while] loop of [wait_all_jobs_finished], lines 460 to 463. *)
Fixpoint wait_all_jobs_finished_loop (fuel : nat) (job_id_list : list string)
    : M unit :=
  absent ← comprehension (check_job_absent qstat_output) job_id_list ;
  if negb (py_all absent) then
    match fuel with
    | 0 => diverge
    | S fuel' =>
        emit (stdout_write ".") ;;
        emit (EvSleep 3) ;;
        wait_all_jobs_finished_loop fuel' job_id_list
    end
  else ret tt.

Definition wait_all_jobs_finished (fuel : nat) (job_id_list : list string)
    : M bool :=
  let jobs_finished := false in
  startTime ← now ;
  logger_debug (WaitingAllFinished job_id_list) ;;
  wait_all_jobs_finished_loop fuel job_id_list ;;
  t ← now ;
  let elapsed_time := (t - startTime)%Z in
  logger_debug (AllFinished elapsed_time) ;;
  absent ← comprehension (check_job_absent qstat_output) job_id_list ;
  ret (if py_all absent then true else jobs_finished).

End Waiting.

(** In the round of queries that starts with query [k], the [n]-th identifier
    meets the listing of query [k + n]. *)
Definition round_running (qstat_output : nat -> string) (k : nat)
    (job_id_list : list string) : Prop :=
  forall n job_id, job_id_list !! n = Some job_id ->
    followed_by (chars job_id) (chars "r") (chars (qstat_output (k + n))).

Definition round_absent (qstat_output : nat -> string) (k : nat)
    (job_id_list : list string) : Prop :=
  forall n job_id, job_id_list !! n = Some job_id ->
    ~ occurs (chars job_id) (chars (qstat_output (k + n))).

(** Identifiers the patterns take literally. *)
Definition plain_ids (job_id_list : list string) : Prop :=
  Forall (fun job_id => plain_id job_id = true /\ job_id <> "") job_id_list.

(** The answers of [check_job_absent] and of [check_job_status] for the state
    [r] on the listing of query [k]. *)
Definition absent_at (qstat_output : nat -> string) (job_id : string)
    (k : nat) : bool :=
  bool_decide
    (PyRe.findall (listed_pattern job_id) (chars (qstat_output k)) = []).

Definition running_at (qstat_output : nat -> string) (job_id : string)
    (k : nat) : bool :=
  negb (bool_decide
          (PyRe.findall (desired_pattern job_id "r")
                        (chars (qstat_output k)) = [])).

(** ** [old_job_monitor] (lines 300 to 341) *)

(** The texts [old_job_monitor] logs and the levels it logs them at. *)
Inductive old_message : Type :=
  | NoJobsPresent
  | WaitingToStart
  | CheckingPresent
  | AllExitedWhileWaiting
  | CheckingStillRunning
  | WaitingToFinish
  | NoJobsInQueue
  | SomeJobsNotRunning.

Inductive old_level : Type := OldDebug | OldWarning | OldError.

Definition py_any (l : list bool) : bool := existsb (fun b => b) l.

Section OldMonitor.

Variable qstat_output : nat -> string.

(** The environment: the event a record of the logger leaves. *)
Variable logger : old_level -> old_message -> event.

(** The first [while] loop, lines 317 to 325, over the list [jobs]. *)
Fixpoint old_wait_start (fuel : nat) (jobs : list handle) : M unit :=
  r ← comprehension (running qstat_output) jobs ;
  if negb (py_all r) then
    match fuel with
    | 0 => diverge
    | S fuel' =>
        emit (EvSleep 1) ;;
        emit (logger OldDebug CheckingPresent) ;;
        p ← comprehension (fun job => b ← present qstat_output job ;
                                      ret (negb b)) jobs ;
        if py_all p then emit (logger OldWarning AllExitedWhileWaiting)
        else old_wait_start fuel' jobs
    end
  else ret tt.

(** The second [while] loop, lines 335 and 336. *)
Fixpoint old_wait_finish (fuel : nat) (jobs : list handle) : M unit :=
  r ← comprehension (running qstat_output) jobs ;
  if py_any r then
    match fuel with
    | 0 => diverge
    | S fuel' => emit (EvSleep 5) ;; old_wait_finish fuel' jobs
    end
  else ret tt.

(** [old_job_monitor(jobs)] for [jobs] the list of the world; each loop may
    run [fuel] times. *)
Definition old_job_monitor (fuel : nat) : M unit :=
  jobs ← get_jobs ;
  if length jobs <? 1 then emit (logger OldError NoJobsPresent)
  else
    emit (logger OldDebug WaitingToStart) ;;
    old_wait_start fuel jobs ;;
    emit (logger OldDebug CheckingStillRunning) ;;
    r ← comprehension (running qstat_output) jobs ;
    (if py_any r then
       emit (logger OldDebug WaitingToFinish) ;;
       old_wait_finish fuel jobs
     else ret tt) ;;
    r1 ← comprehension (running qstat_output) jobs ;
    c1 ← (if negb (py_any r1) return M bool
          then p ← comprehension (present qstat_output) jobs ;
               ret (negb (py_any p))
          else ret false) ;
    if (c1 : bool) then emit (logger OldDebug NoJobsInQueue)
    else
      r2 ← comprehension (running qstat_output) jobs ;
      c2 ← (if negb (py_any r2) return M bool
            then p ← comprehension (present qstat_output) jobs ;
                 ret (py_any p)
            else ret false) ;
      if (c2 : bool) then emit (logger OldWarning SomeJobsNotRunning)
      else ret tt.

End OldMonitor.


(** ** Further scenarios *)


(** Job 102 waits in the first listing and runs from the second on. *)
Definition starts_later : nat -> string :=
  fun k => if k =? 0 then listing [("102", "qw")] else listing [("102", "r")].

(** An environment: every text is recorded as [CommandOutput], a write to
    the console as a record at level info, and the clock counts the events of
    the trace. *)
Definition sample_render (m : wait_message) : log_message := CommandOutput.

Definition sample_console (s : string) : event := EvLog LInfo CommandOutput.

Definition sample_clock (w : world) : Z := Z.of_nat (length (trace w)).

Definition sample_logger (l : old_level) (m : old_message) : event :=
  EvLog match l with
        | OldDebug => LDebug
        | OldWarning => LInfo
        | OldError => LError
        end CommandOutput.

(** * Properties *)

(** ** The state table *)

Lemma get_state_fst (status : option string) (d : state_table) :
  fst (get_state status d) = answer d (py_str status).
Proof.
  unfold get_state, defaultdict_getitem, answer.
  destruct (d !! py_str status); reflexivity.
Qed.

Lemma get_state_snd (status : option string) (d : state_table) :
  snd (get_state status d) =
    match d !! py_str status with
    | Some _ => d
    | None => <[py_str status := None]> d
    end.
Proof.
  unfold get_state, defaultdict_getitem.
  destruct (d !! py_str status); reflexivity.
Qed.

(** A lookup never changes the answer of any key. *)
Lemma answer_get_state (status : option string) (d : state_table) (k : string) :
  answer (snd (get_state status d)) k = answer d k.
Proof.
  rewrite get_state_snd. unfold answer.
  destruct (d !! py_str status) eqn:E; [reflexivity|].
  destruct (decide (py_str status = k)) as [<-|Hne].
  - rewrite lookup_insert_eq, E. reflexivity.
  - rewrite lookup_insert_ne by exact Hne. reflexivity.
Qed.

Lemma answer_table_after (earlier : list (option string)) (k : string) :
  answer (table_after earlier) k = answer job_state_key k.
Proof.
  unfold table_after.
  induction earlier as [|s l IH] using rev_ind; [reflexivity|].
  rewrite fold_left_app. simpl. rewrite answer_get_state. exact IH.
Qed.

Lemma answer_job_state_key (k : string) :
  answer job_state_key k = state_value (spec_classify (Some k)).
Proof.
  unfold answer, job_state_key, spec_classify.
  repeat case_decide; subst; try reflexivity.
  rewrite !lookup_insert_ne by congruence. reflexivity.
Qed.

(** C4. Classification is total and follows the fixed table: ["r"] is
    Running, ["qw"] Waiting, ["Eqw"] Error, ["t"], ["dr"] and every other
    token, the absent status included, are Unknown ([None]); and this
    whatever statuses were classified before. *)
Theorem get_state_follows_table (earlier : list (option string))
    (token : option string) :
  fst (get_state token (table_after earlier))
  = state_value (spec_classify token).
Proof.
  rewrite get_state_fst, answer_table_after, answer_job_state_key.
  destruct token as [t|]; [reflexivity|].
  unfold spec_classify. simpl. repeat case_decide; try discriminate; reflexivity.
Qed.

(** The claim of C5 as it stands fails: classifying a token that has no entry
    stores an entry for it in the shared table. *)
Lemma get_state_changes_table :
  snd (get_state (Some "xyz") job_state_key) <> job_state_key.
Proof.
  intros H.
  assert (E : snd (get_state (Some "xyz") job_state_key) !! "xyz"
              = job_state_key !! "xyz") by (rewrite H; reflexivity).
  vm_compute in E. discriminate E.
Qed.

(** C5, amended. Classifying a token never changes how any token is
    classified afterwards. The table itself is unchanged when the token has an
    entry, and gains the entry [token -> None] when it has none. *)
Theorem get_state_keeps_classification (token : option string)
    (d : state_table) :
  (forall t, fst (get_state t (snd (get_state token d))) = fst (get_state t d))
  /\ snd (get_state token d)
     = match d !! py_str token with
       | Some _ => d
       | None => <[py_str token := None]> d
       end.
Proof.
  split.
  - intros t. rewrite !get_state_fst. apply answer_get_state.
  - apply get_state_snd.
Qed.

(** ** Frame rules for the monad

    For a preorder [R] kept by the primitive actions, every method of [Job]
    and the loops of [monitor_jobs] keep it. *)

Section Frame.

Variable qstat_output : nat -> string.
Variable R : relation world.
Hypothesis R_refl : forall w, R w w.
Hypothesis R_trans : forall a b c, R a b -> R b c -> R a c.

Lemma keeps_ret {A : Type} (a : A) : keeps R (ret a).
Proof. intros w. apply R_refl. Qed.

Lemma keeps_raise {A : Type} (e : exn) : keeps R (raise (A := A) e).
Proof. intros w. apply R_refl. Qed.

Lemma keeps_diverge {A : Type} : keeps R (diverge (A := A)).
Proof. intros w. apply R_refl. Qed.

Lemma keeps_bind {A B : Type} (m : M A) (k : A -> M B) :
  keeps R m -> (forall a, keeps R (k a)) -> keeps R (m ≫= k).
Proof.
  intros Hm Hk w. unfold mbind, M_bind, bind.
  specialize (Hm w). destruct (m w) as [[a|e|] w1]; simpl in *; try exact Hm.
  eapply R_trans; [exact Hm | apply Hk].
Qed.

Lemma keeps_get_jobs : keeps R get_jobs.
Proof. intros w. apply R_refl. Qed.

Lemma keeps_read (h : handle) : keeps R (read h).
Proof. intros w. unfold read. destruct (heap w !! h); apply R_refl. Qed.

Lemma keeps_getattr {A : Type} (a : attr A) : keeps R (getattr a).
Proof. destruct a; [apply keeps_ret | apply keeps_raise]. Qed.

Hypothesis R_emit : forall e, (forall c, e <> EvCancel c) -> keeps R (emit e).
Hypothesis R_qstat : keeps R (qstat qstat_output).
Hypothesis R_write :
  forall h j j', id j' = id j -> forall w, heap w !! h = Some j ->
    R w (snd (write h j' w)).
Hypothesis R_table : forall s, keeps R (get_state_shared s).

Lemma keeps_setattr (h : handle) (f : job -> job) :
  (forall j, id (f j) = id j) -> keeps R (setattr h f).
Proof.
  intros Hf w. unfold setattr, mbind, M_bind, bind, read.
  destruct (heap w !! h) as [j|] eqn:E; simpl; [|apply R_refl].
  apply (R_write h j); [apply Hf | exact E].
Qed.

Ltac keeps_step :=
  match goal with
  | |- keeps _ (mbind _ _) => apply keeps_bind; [|intros ?]
  | |- keeps _ (ret _) => apply keeps_ret
  | |- keeps _ (raise _) => apply keeps_raise
  | |- keeps _ diverge => apply keeps_diverge
  | |- keeps _ get_jobs => apply keeps_get_jobs
  | |- keeps _ (read _) => apply keeps_read
  | |- keeps _ (getattr _) => apply keeps_getattr
  | |- keeps _ (setattr _ _) => apply keeps_setattr; intros []; reflexivity
  | |- keeps _ (emit _) => apply R_emit; intros; discriminate
  | |- keeps _ (qstat _) => apply R_qstat
  | |- keeps _ (get_state_shared _) => apply R_table
  | |- keeps _ (if ?b then _ else _) => destruct b
  | |- keeps _ (match ?x with _ => _ end) => destruct x
  end.

Lemma keeps_get_job (i : string) (q : option string) :
  keeps R (get_job qstat_output i q).
Proof. unfold get_job. repeat keeps_step. Qed.

Lemma keeps_get_status (i : string) (e : option (list string))
    (q : option string) :
  keeps R (get_status qstat_output i e q).
Proof.
  unfold get_status. keeps_step; [|keeps_step].
  destruct (not_list e); [apply keeps_get_job | keeps_step].
Qed.

Lemma keeps_get_is_present (i : string) (e : option (list string))
    (q : option string) :
  keeps R (get_is_present qstat_output i e q).
Proof.
  unfold get_is_present. keeps_step; [|keeps_step].
  destruct (not_list e); [apply keeps_get_job | keeps_step].
Qed.

Lemma keeps_update (self : handle) : keeps R (_update qstat_output self).
Proof.
  unfold _update.
  repeat first [ apply keeps_get_job | apply keeps_get_status
               | apply keeps_get_is_present | keeps_step ].
Qed.

Lemma keeps_present (self : handle) : keeps R (present qstat_output self).
Proof. unfold present. repeat first [apply keeps_update | keeps_step]. Qed.

Lemma keeps_error (self : handle) : keeps R (error qstat_output self).
Proof. unfold error. repeat first [apply keeps_update | keeps_step]. Qed.

Lemma keeps_job_ids (l : list handle) : keeps R (job_ids l).
Proof.
  induction l as [|h l IH]; simpl; [apply keeps_ret|].
  repeat first [apply IH | keeps_step].
Qed.

Hypothesis R_remove : forall x, keeps R (list_remove x).
Hypothesis R_pop : forall i, keeps R (list_pop i).

Lemma keeps_for_jobs (n i : nat) (err_jobs : list handle) :
  keeps R (for_jobs qstat_output n i err_jobs).
Proof.
  revert i err_jobs. induction n as [|n IH]; intros i err_jobs; simpl.
  - repeat keeps_step.
  - keeps_step; [keeps_step|]. destruct (a !! i); [|keeps_step].
    repeat first [ apply IH | apply keeps_present | apply keeps_error
                 | apply R_remove | apply R_pop | keeps_step ].
Qed.

Lemma keeps_poll_cycle (err_jobs : list handle) :
  keeps R (poll_cycle qstat_output err_jobs).
Proof. unfold poll_cycle. repeat first [apply keeps_for_jobs | keeps_step]. Qed.

Lemma keeps_while_jobs (fuel num_jobs : nat) (err_jobs : list handle) :
  keeps R (while_jobs qstat_output fuel num_jobs err_jobs).
Proof.
  revert num_jobs err_jobs.
  induction fuel as [|fuel IH]; intros num_jobs err_jobs; simpl.
  - repeat keeps_step.
  - destruct (0 <? num_jobs); [|keeps_step].
    repeat first [apply IH | apply keeps_poll_cycle | keeps_step].
Qed.

Lemma keeps_monitor_loop (fuel : nat) :
  keeps R (monitor_loop qstat_output fuel).
Proof.
  unfold monitor_loop. repeat first [apply keeps_while_jobs | keeps_step].
Qed.

End Frame.

(** ** Relations kept by the monitor *)

Lemma cancels_app (a b : list event) : cancels (a ++ b) = cancels a ++ cancels b.
Proof. unfold cancels. apply omap_app. Qed.

Lemma no_cancel_refl (w : world) : no_cancel w w.
Proof. exists []. rewrite app_nil_r. split; reflexivity. Qed.

Lemma no_cancel_same_trace (w w' : world) :
  trace w' = trace w -> no_cancel w w'.
Proof. intros H. exists []. rewrite app_nil_r. split; [exact H | reflexivity]. Qed.

Lemma no_cancel_trans (a b c : world) :
  no_cancel a b -> no_cancel b c -> no_cancel a c.
Proof.
  intros (e1 & H1 & C1) (e2 & H2 & C2). exists (e1 ++ e2). split.
  - rewrite H2, H1, app_assoc. reflexivity.
  - rewrite cancels_app, C1, C2. reflexivity.
Qed.

Lemma no_cancel_emit (e : event) :
  (forall c, e <> EvCancel c) -> keeps no_cancel (emit e).
Proof.
  intros He w. exists [e]. split; [reflexivity|].
  destruct e; try reflexivity. exfalso. eapply He. reflexivity.
Qed.

Lemma remove_first_length (x : handle) (l l' : list handle) :
  remove_first x l = Some l' -> length l = S (length l').
Proof.
  revert l'. induction l as [|y l IH]; intros l'; simpl; [discriminate|].
  case_bool_decide.
  - intros [= <-]. reflexivity.
  - destruct (remove_first x l) as [r|]; simpl; [|discriminate].
    intros [= <-]. simpl. rewrite (IH r); reflexivity.
Qed.

(** Side conditions of the frame rules for a relation on the list alone. *)
Ltac frame_solve :=
  unfold keeps, same_jobs, not_longer; intros;
  first [ reflexivity | congruence | lia
        | unfold get_state_shared; destruct (get_state _ _); reflexivity ].

Section Instances.

Variable qstat_output : nat -> string.

Lemma same_jobs_present (h : handle) :
  keeps same_jobs (present qstat_output h).
Proof.
  apply keeps_present; frame_solve.
Qed.

Lemma same_jobs_error (h : handle) :
  keeps same_jobs (error qstat_output h).
Proof.
  apply keeps_error; frame_solve.
Qed.

Lemma same_jobs_job_ids (l : list handle) : keeps same_jobs (job_ids l).
Proof.
  apply keeps_job_ids; frame_solve.
Qed.

Lemma not_longer_remove (x : handle) : keeps not_longer (list_remove x).
Proof.
  intros w. unfold list_remove, mbind, M_bind, bind, get_jobs, not_longer.
  destruct (remove_first x (jobs_list w)) as [l|] eqn:E; simpl; [|lia].
  apply remove_first_length in E. lia.
Qed.

Lemma not_longer_pop (i : nat) : keeps not_longer (list_pop i).
Proof.
  intros w. unfold list_pop, mbind, M_bind, bind, get_jobs, not_longer.
  destruct (jobs_list w !! i) as [x|] eqn:E; simpl; [|lia].
  rewrite length_delete by (eexists; exact E). lia.
Qed.

Lemma not_longer_for_jobs (n i : nat) (err_jobs : list handle) :
  keeps not_longer (for_jobs qstat_output n i err_jobs).
Proof.
  apply keeps_for_jobs;
    try solve [frame_solve]; [apply not_longer_remove | apply not_longer_pop].
Qed.

Lemma no_cancel_monitor_loop (fuel : nat) :
  keeps no_cancel (monitor_loop qstat_output fuel).
Proof.
  apply keeps_monitor_loop.
  - apply no_cancel_refl.
  - apply no_cancel_trans.
  - apply no_cancel_emit.
  - intros w. exists [EvQstat (qstat_calls w)]. split; reflexivity.
  - intros h j j' _ w _. apply no_cancel_same_trace. reflexivity.
  - intros s w. apply no_cancel_same_trace. unfold get_state_shared.
    destruct (get_state s (table w)). reflexivity.
  - intros x w. apply no_cancel_same_trace.
    unfold list_remove, mbind, M_bind, bind, get_jobs.
    destruct (remove_first x (jobs_list w)); reflexivity.
  - intros i w. apply no_cancel_same_trace.
    unfold list_pop, mbind, M_bind, bind, get_jobs.
    destruct (jobs_list w !! i); reflexivity.
Qed.

End Instances.

(** ** Running a sequence *)

Lemma bind_Ok {A B : Type} (m : M A) (k : A -> M B) (w w' : world) (b : B) :
  (m ≫= k) w = (Ok b, w') ->
  exists a w1, m w = (Ok a, w1) /\ k a w1 = (Ok b, w').
Proof.
  unfold mbind, M_bind, bind. destruct (m w) as [[a|e|] w1]; try discriminate.
  intros H. exists a, w1. split; [reflexivity | exact H].
Qed.

Lemma same_jobs_refl (w : world) : same_jobs w w.
Proof. reflexivity. Qed.

Lemma same_jobs_trans (a b c : world) :
  same_jobs a b -> same_jobs b c -> same_jobs a c.
Proof. unfold same_jobs. congruence. Qed.

Lemma same_jobs_kill_err_jobs (err_jobs : list handle) (kill_err : bool) :
  keeps same_jobs (kill_err_jobs err_jobs kill_err).
Proof.
  unfold kill_err_jobs.
  repeat first
    [ apply keeps_bind; [apply same_jobs_trans | | intros ?]
    | apply same_jobs_job_ids
    | apply keeps_ret; apply same_jobs_refl
    | match goal with
      | |- keeps _ (if ?b then _ else _) => destruct b
      | |- keeps _ (emit _) => intros ?; reflexivity
      end ].
Qed.

Section Emptied.

Variable qstat_output : nat -> string.

Lemma poll_cycle_nil (err_jobs : list handle) (w : world) :
  jobs_list w = [] -> poll_cycle qstat_output err_jobs w = (Ok err_jobs, w).
Proof.
  intros H. unfold poll_cycle, mbind, M_bind, bind, get_jobs. rewrite H. simpl.
  unfold mbind, M_bind, bind, get_jobs. rewrite H. reflexivity.
Qed.

(** The loop can only be left with the list empty: [num_jobs] is the length
    the list had when the last cycle started, and a cycle over the empty list
    changes nothing. *)
Lemma while_jobs_emptied (fuel : nat) :
  forall (num_jobs : nat) (err_jobs : list handle) (w : world)
         (err_jobs' : list handle) (w' : world),
    (num_jobs = 0 -> jobs_list w = []) ->
    while_jobs qstat_output fuel num_jobs err_jobs w = (Ok err_jobs', w') ->
    jobs_list w' = [].
Proof.
  induction fuel as [|fuel IH]; intros n errs w errs' w' Hn H; simpl in H.
  - destruct (0 <? n) eqn:E; [discriminate|].
    injection H as <- <-. apply Hn. apply Nat.ltb_ge in E. lia.
  - destruct (0 <? n) eqn:E.
    + apply bind_Ok in H as (l & w1 & H1 & H). injection H1 as <- <-.
      apply bind_Ok in H as (n' & w2 & H2 & H).
      apply bind_Ok in H as (errs2 & w3 & H3 & H).
      apply bind_Ok in H as ([] & w4 & H4 & H).
      injection H4 as <-.
      apply IH in H; [exact H|]. intros Hn'. simpl.
      assert (Hw2 : jobs_list w2 = jobs_list w /\ n' = length (jobs_list w)).
      { destruct (n =? length (jobs_list w)) eqn:E2; simpl in H2.
        - injection H2 as <- <-. apply Nat.eqb_eq in E2. auto.
        - injection H2 as <- <-. auto. }
      destruct Hw2 as [Hj Hl]. subst n'.
      assert (Hnil : jobs_list w2 = []).
      { rewrite Hj. destruct (jobs_list w); [reflexivity | discriminate]. }
      rewrite (poll_cycle_nil errs w2 Hnil) in H3. injection H3 as _ <-.
      exact Hnil.
    + injection H as <- <-. apply Hn. apply Nat.ltb_ge in E. lia.
Qed.

(** C10. On normal return of [monitor_jobs], the list object the caller
    passed has been emptied in place. *)
Theorem monitor_jobs_empties_list (fuel : nat) (kill_err : bool)
    (w w' : world) :
  monitor_jobs qstat_output fuel PyList kill_err w = (Ok tt, w') ->
  jobs_list w' = [].
Proof.
  intros H. unfold monitor_jobs in H.
  apply bind_Ok in H as (nj & w1 & H1 & H).
  injection H1 as <- <-.
  case_bool_decide as Hl; simpl in H.
  - injection H as <-. exact Hl.
  - unfold mbind, M_bind, bind in H; simpl in H.
    destruct (length (jobs_list w) <? 1) eqn:E; simpl in H.
    + injection H as <-. simpl.
      apply Nat.ltb_lt in E. destruct (jobs_list w); simpl in E; [congruence|lia].
    + apply bind_Ok in H as (errs & w2 & H2 & H).
      pose proof (same_jobs_kill_err_jobs errs kill_err w2) as Hk.
      rewrite H in Hk. unfold same_jobs in Hk. simpl in Hk. rewrite Hk.
      unfold monitor_loop in H2.
      apply bind_Ok in H2 as (l & w3 & H3 & H2). injection H3 as <- <-.
      apply bind_Ok in H2 as ([] & w4 & H4 & H2). injection H4 as <-.
      apply bind_Ok in H2 as (errs' & w5 & H5 & H2).
      apply bind_Ok in H2 as ([] & w6 & H6 & H2). injection H6 as <-.
      injection H2 as _ <-. simpl.
      apply while_jobs_emptied in H5; [exact H5|].
      simpl. intros Hz. destruct (jobs_list w); [reflexivity | discriminate].
Qed.

End Emptied.

(** ** The cancellation after the loop *)

Lemma job_ids_Ok (l : list handle) (w w' : world) (ids : list string) :
  job_ids l w = (Ok ids, w') -> w' = w /\ ids_of (heap w) l ids.
Proof.
  revert ids w'. induction l as [|h l IH]; intros ids w' H; simpl in H.
  - injection H as <- <-. split; [reflexivity | constructor].
  - apply bind_Ok in H as (j & w1 & H1 & H).
    unfold read in H1. destruct (heap w !! h) as [j'|] eqn:E; [|discriminate].
    injection H1 as <- <-.
    apply bind_Ok in H as (r & w2 & H2 & H).
    apply IH in H2 as [-> Hr]. injection H as <- <-.
    split; [reflexivity|]. constructor; [|exact Hr]. exists j'. auto.
Qed.

Lemma kill_err_jobs_Ok (err_jobs : list handle) (kill_err : bool)
    (w w' : world) :
  kill_err_jobs err_jobs kill_err w = (Ok tt, w') ->
  exists ids evs,
    ids_of (heap w') err_jobs ids /\
    trace w' = trace w ++ evs /\
    cancels evs =
      if negb (bool_decide (err_jobs = [])) && kill_err
      then ["qdel " +:+ String.concat " " ids] else [].
Proof.
  unfold kill_err_jobs. intros H. case_bool_decide as He; simpl in H.
  - injection H as <-. exists [], []. subst err_jobs.
    rewrite app_nil_r. repeat split. constructor.
  - apply bind_Ok in H as (ids & w1 & H1 & H).
    apply job_ids_Ok in H1 as [-> Hids].
    apply bind_Ok in H as ([] & w2 & H2 & H). injection H2 as <-.
    destruct kill_err.
    + apply bind_Ok in H as ([] & w3 & H3 & H). injection H3 as <-.
      apply bind_Ok in H as (ids' & w4 & H4 & H).
      apply job_ids_Ok in H4 as [-> Hids'].
      apply bind_Ok in H as ([] & w5 & H5 & H). injection H5 as <-.
      injection H as <-. simpl in *.
      exists ids', [EvLog LError (JobsLeftInError (length err_jobs) ids);
                    EvLog LDebug KillingJobs;
                    EvCancel ("qdel " +:+ String.concat " " ids');
                    EvLog LDebug CommandOutput].
      repeat split; [exact Hids'|]. rewrite <- !app_assoc. reflexivity.
    + injection H as <-. simpl.
      exists ids, [EvLog LError (JobsLeftInError (length err_jobs) ids)].
      repeat split. exact Hids.
Qed.

Section Cancellation.

Variable qstat_output : nat -> string.

(** C8. When a monitoring run ends, the commands given to the cancellation
    collaborator during the call are: one [qdel] command with the identifiers
    of all the jobs of the stuck collection, when that collection is not
    empty and [kill_err] is set; none otherwise. *)
Theorem cancel_is_batched (fuel : nat) (kill_err : bool) (w w' : world) :
  jobs_list w <> [] ->
  monitor_jobs qstat_output fuel PyList kill_err w = (Ok tt, w') ->
  exists err_jobs w1 ids evs,
    monitor_loop qstat_output fuel w = (Ok err_jobs, w1) /\
    ids_of (heap w') err_jobs ids /\
    trace w' = trace w ++ evs /\
    cancels evs =
      if negb (bool_decide (err_jobs = [])) && kill_err
      then ["qdel " +:+ String.concat " " ids] else [].
Proof.
  intros Hl H. unfold monitor_jobs in H.
  apply bind_Ok in H as (nj & w0 & H1 & H). injection H1 as <- <-.
  rewrite bool_decide_eq_false_2 in H by exact Hl.
  unfold mbind, M_bind, bind in H; simpl in H.
  destruct (length (jobs_list w) <? 1) eqn:E; simpl in H.
  { apply Nat.ltb_lt in E. destruct (jobs_list w); simpl in E; [congruence|lia]. }
  apply bind_Ok in H as (errs & w2 & H2 & H).
  apply kill_err_jobs_Ok in H as (ids & e2 & Hids & Ht & Hc).
  destruct (no_cancel_monitor_loop qstat_output fuel w) as (e1 & Ht1 & Hc1).
  rewrite H2 in Ht1. simpl in Ht1.
  exists errs, w2, ids, (e1 ++ e2). repeat split.
  - exact H2.
  - exact Hids.
  - rewrite Ht, Ht1, app_assoc. reflexivity.
  - rewrite cancels_app, Hc1, Hc. reflexivity.
Qed.

End Cancellation.

(** ** Refreshing a handle *)

Lemma bind_run {A B : Type} (m : M A) (k : A -> M B) (w w1 : world) (a : A) :
  m w = (Ok a, w1) -> (m ≫= k) w = k a w1.
Proof. intros H. unfold mbind, M_bind, bind. rewrite H. reflexivity. Qed.

Lemma read_run (h : handle) (j : job) (w : world) :
  heap w !! h = Some j -> read h w = (Ok j, w).
Proof. intros H. unfold read. rewrite H. reflexivity. Qed.

Lemma setattr_run (h : handle) (f : job -> job) (j : job) (w : world) :
  heap w !! h = Some j ->
  setattr h f w
  = (Ok tt, World (qstat_calls w) (table w) (<[h := f j]> (heap w))
                  (jobs_list w) (trace w)).
Proof.
  intros H. unfold setattr. rewrite (bind_run _ _ _ _ _ (read_run h j w H)).
  reflexivity.
Qed.

Lemma get_state_shared_run (s : option string) (w : world) :
  get_state_shared s w
  = (Ok (get_state s (table w)).1,
     World (qstat_calls w) (get_state s (table w)).2 (heap w) (jobs_list w)
           (trace w)).
Proof.
  unfold get_state_shared. destruct (get_state s (table w)). reflexivity.
Qed.

Section Refresh.

Variable qstat_output : nat -> string.

Lemma get_job_run (i snapshot : string) (w : world) :
  snapshot <> "" ->
  get_job qstat_output i (Some snapshot) w = (Ok (find_entries i snapshot), w).
Proof.
  intros Hs. unfold get_job.
  rewrite (bool_decide_eq_false_2 _ Hs : not_str (Some snapshot) = false).
  reflexivity.
Qed.

Lemma get_status_run (i snapshot : string) (w : world) :
  snapshot <> "" ->
  get_status qstat_output i (Some (find_entries i snapshot)) (Some snapshot) w
  = (Ok (parse_status i (find_entries i snapshot)), w).
Proof.
  intros Hs. unfold get_status.
  destruct (find_entries i snapshot) eqn:E; simpl not_list; cbv iota.
  - rewrite (bind_run _ _ _ _ _ (get_job_run i snapshot w Hs)), E. reflexivity.
  - reflexivity.
Qed.

Lemma get_is_present_run (i snapshot : string) (w : world) :
  snapshot <> "" ->
  get_is_present qstat_output i (Some (find_entries i snapshot))
                 (Some snapshot) w
  = (Ok (negb (bool_decide (find_entries i snapshot = []))), w).
Proof.
  intros Hs. unfold get_is_present.
  destruct (find_entries i snapshot) eqn:E; simpl not_list; cbv iota.
  - rewrite (bind_run _ _ _ _ _ (get_job_run i snapshot w Hs)), E. reflexivity.
  - reflexivity.
Qed.

Ltac run_step tac :=
  erewrite bind_run by tac;
  cbn [qstat_calls table heap jobs_list trace id qstat_stdout entry status
       state set_qstat_stdout set_entry set_status set_state set_is_running
       set_is_error set_is_present getattr].

Ltac run_setattr := run_step ltac:(apply setattr_run; apply lookup_insert_eq).
Ltac run_read := run_step ltac:(apply read_run; apply lookup_insert_eq).

(** [_update] against a listing that is not empty: one query, and the three
    booleans are those of that listing. *)
Lemma update_consistent (self : handle) (j : job) (w : world) :
  heap w !! self = Some j ->
  qstat_output (qstat_calls w) <> "" ->
  let snapshot := qstat_output (qstat_calls w) in
  let e := find_entries (id j) snapshot in
  let st := (get_state (parse_status (id j) e) (table w)).1 in
  exists w' j',
    _update qstat_output self w = (Ok tt, w') /\
    heap w' !! self = Some j' /\
    qstat_calls w' = S (qstat_calls w) /\
    id j' = id j /\
    is_running j' = Some (get_is_running st) /\
    is_error j' = Some (get_is_error st) /\
    is_present j' = Some (negb (bool_decide (e = []))).
Proof.
  intros Hh Hs snapshot e st.
  unfold _update.
  run_step ltac:(reflexivity).
  run_step ltac:(apply setattr_run; exact Hh).
  run_read.
  run_step ltac:(apply get_job_run; exact Hs).
  run_setattr. run_read.
  run_step ltac:(apply get_status_run; exact Hs).
  run_setattr. run_read.
  run_step ltac:(reflexivity).
  run_step ltac:(apply get_state_shared_run).
  run_setattr. run_read.
  run_step ltac:(reflexivity).
  run_setattr. run_read.
  run_step ltac:(reflexivity).
  run_setattr. run_read.
  run_step ltac:(apply get_is_present_run; exact Hs).
  rewrite (setattr_run _ _ _ _ (lookup_insert_eq _ _ _)).
  cbn [qstat_calls table heap jobs_list trace].
  do 2 eexists. split; [reflexivity|].
  cbn [qstat_calls table heap jobs_list trace].
  split; [apply lookup_insert_eq|]. repeat split.
Qed.

(** [_debug_update] against a listing that is not empty: the state, the
    running and the presence booleans are those of the listing; [is_error] is
    not assigned and keeps what it had, or stays unset. *)
Lemma debug_update_skips_is_error (self : handle) (j : job)
    (snapshot : string) (w : world) :
  heap w !! self = Some j ->
  snapshot <> "" ->
  let e := find_entries (id j) snapshot in
  let st := (get_state (parse_status (id j) e) (table w)).1 in
  exists w' j',
    _debug_update qstat_output self snapshot w = (Ok tt, w') /\
    heap w' !! self = Some j' /\
    qstat_calls w' = qstat_calls w /\
    state j' = Some st /\
    is_running j' = Some (get_is_running st) /\
    is_present j' = Some (negb (bool_decide (e = []))) /\
    is_error j' = is_error j.
Proof.
  intros Hh Hs e st.
  unfold _debug_update.
  run_step ltac:(apply setattr_run; exact Hh).
  run_read.
  run_step ltac:(apply get_job_run; exact Hs).
  run_setattr. run_read.
  run_step ltac:(apply get_status_run; exact Hs).
  run_setattr. run_read.
  run_step ltac:(reflexivity).
  run_step ltac:(apply get_state_shared_run).
  run_setattr. run_read.
  run_step ltac:(reflexivity).
  run_setattr. run_read.
  run_step ltac:(apply get_is_present_run; exact Hs).
  rewrite (setattr_run _ _ _ _ (lookup_insert_eq _ _ _)).
  cbn [qstat_calls table heap jobs_list trace].
  do 2 eexists. split; [reflexivity|].
  cbn [qstat_calls table heap jobs_list trace].
  split; [apply lookup_insert_eq|]. repeat split.
Qed.

End Refresh.

(** ** The monitor on the scenarios *)

(** C1 fails on the code. Jobs 0 and 1 are active when the cycle starts; job 0
    is absent and is removed, the list shrinks under the iterator, and the
    cycle ends without any evaluation of job 1, which stays active. *)
Lemma poll_cycle_skips_job_after_removal :
  let r := poll_cycle only_102 [] (cohort ["101"; "102"]) in
  jobs_list (cohort ["101"; "102"]) = [0; 1] /\
  r.1 = Ok [] /\
  jobs_list r.2 = [1] /\
  trace r.2 = [EvQstat 0; EvPresent 0 false; EvQstat 1; EvError 0 false].
Proof. vm_compute. repeat split. Qed.

(** C2 fails on the code. Job 0 is found absent and removed, and its error
    check is made all the same, in the same cycle, with a second query. When
    that check answers true, [jobs.pop(0)] is applied to the list the job has
    left: here the list is empty and the call raises [IndexError]. *)
Lemma error_checked_after_absence :
  let r := poll_cycle only_102 [] (cohort ["101"]) in
  let r' := poll_cycle flicker_101 [] (cohort ["101"]) in
  r.1 = Ok [] /\
  jobs_list r.2 = [] /\
  qstat_calls r.2 = 2 /\
  trace r.2 = [EvQstat 0; EvPresent 0 false; EvQstat 1; EvError 0 false] /\
  r'.1 = Raise IndexError /\
  trace r'.2 = [EvQstat 0; EvPresent 0 false; EvQstat 1; EvError 0 true].
Proof. vm_compute. repeat split. Qed.

(** C3 fails on the code. Job 0 is found absent and removed; its error check,
    made all the same on the next listing, answers true; [jobs.pop(0)] then
    moves job 1, whose error check was never made, to the stuck collection,
    and job 1 (identifier 102, running) is the one cancelled. *)
Lemma wrong_job_moved_to_stuck :
  let r := monitor_loop flicker_101 5 (cohort ["101"; "102"]) in
  let r' := monitor_jobs flicker_101 5 PyList true (cohort ["101"; "102"]) in
  r.1 = Ok [1] /\
  trace r.2 = [EvLog LInfo (MonitoringJobs 2);
               EvQstat 0; EvPresent 0 false; EvQstat 1; EvError 0 true;
               EvSleep 5; EvLog LDebug (NumberOfJobs 0); EvSleep 5;
               EvLog LInfo NoJobsRemaining] /\
  r'.1 = Ok tt /\
  cancels (trace r'.2) = ["qdel 102"].
Proof. vm_compute. repeat split. Qed.

(** C7 fails on the code. A handle created while job 101 runs has
    [is_error = False]; [_debug_update] against a listing that shows the job
    in [Eqw] sets the state to Error and leaves [is_error] as it was:
    [_update] assigns [is_error], [_debug_update] does not. *)
Lemma debug_update_leaves_is_error_stale :
  let w0 := World 0 job_state_key ∅ [] [] in
  let r1 := Job_init (fun _ => listing [("101", "r")]) "101" None false w0 in
  let r2 := _debug_update (fun _ => listing [("101", "r")]) 0
                          (listing [("101", "Eqw")]) r1.2 in
  r1.1 = Ok 0 /\
  is_error <$> (heap r1.2 !! 0) = Some (Some false) /\
  r2.1 = Ok tt /\
  status <$> (heap r2.2 !! 0) = Some (Some (Some "Eqw")) /\
  state <$> (heap r2.2 !! 0) = Some (Some (Some "Error")) /\
  is_present <$> (heap r2.2 !! 0) = Some (Some true) /\
  is_error <$> (heap r2.2 !! 0) = Some (Some false) /\
  get_is_error (Some "Error") = true.
Proof. vm_compute. repeat split. Qed.

Section InvalidInput.

Variable qstat_output : nat -> string.

(** C9 fails on the code for an argument that is not a list and has no
    length (a lone [Job], a number, a generator): [len(jobs)] is evaluated
    before [isinstance(jobs, list)] and raises [TypeError]; nothing is
    reported and the call does not return. *)
Lemma monitor_jobs_unsized_raises (fuel : nat) (kill_err : bool) (w : world) :
  monitor_jobs qstat_output fuel (PyOther true None) kill_err w
  = (Raise TypeError, w).
Proof. reflexivity. Qed.

(** The other invalid arguments are reported, and the call returns at once:
    no query, no cancellation, only the report. *)
Lemma monitor_jobs_rejects (fuel : nat) (kill_err : bool) (w : world)
    (jobs : pyvalue) :
  jobs = PyNone \/ (jobs = PyList /\ jobs_list w = []) \/
  (exists t n, jobs = PyOther t (Some n)) \/ (exists l, jobs = PyOther false l) ->
  exists m,
    (m = NoJobsToMonitor \/ m = JobsNotAList) /\
    monitor_jobs qstat_output fuel jobs kill_err w
    = (Ok tt, World (qstat_calls w) (table w) (heap w) (jobs_list w)
                    (trace w ++ [EvLog LError m])).
Proof.
  intros [->|[[-> Hl]|[(t & n & ->)|(l & ->)]]].
  - exists NoJobsToMonitor. split; [auto | reflexivity].
  - exists NoJobsToMonitor. split; [auto|].
    unfold monitor_jobs, mbind, M_bind, bind; simpl.
    rewrite (bool_decide_eq_true_2 _ Hl). reflexivity.
  - destruct t, n as [|n]; eexists; (split; [|reflexivity]); auto.
  - exists NoJobsToMonitor. split; [auto | reflexivity].
Qed.

End InvalidInput.

(** A run with a cancellation: job 101 is stuck and cancelled, alone. *)
Lemma cancel_is_batched_witness :
  let w := cohort ["101"; "102"] in
  let w' := (monitor_jobs stuck_101 5 PyList true w).2 in
  jobs_list w <> [] /\
  monitor_jobs stuck_101 5 PyList true w = (Ok tt, w') /\
  exists err_jobs w1 ids evs,
    monitor_loop stuck_101 5 w = (Ok err_jobs, w1) /\
    ids_of (heap w') err_jobs ids /\
    trace w' = trace w ++ evs /\
    cancels evs =
      if negb (bool_decide (err_jobs = [])) && true
      then ["qdel " +:+ String.concat " " ids] else [].
Proof.
  assert (H1 : jobs_list (cohort ["101"; "102"]) <> []) by discriminate.
  assert (H2 : monitor_jobs stuck_101 5 PyList true (cohort ["101"; "102"])
               = (Ok tt, (monitor_jobs stuck_101 5 PyList true
                                       (cohort ["101"; "102"])).2))
    by (vm_compute; reflexivity).
  split; [exact H1|]. split; [exact H2|].
  exact (cancel_is_batched stuck_101 5 true _ _ H1 H2).
Defined.

(** A run that returns, from a list of two handles. *)
Lemma monitor_jobs_empties_list_witness :
  let w := cohort ["101"; "102"] in
  let w' := (monitor_jobs stuck_101 5 PyList true w).2 in
  jobs_list w = [0; 1] /\
  monitor_jobs stuck_101 5 PyList true w = (Ok tt, w') /\
  jobs_list w' = [].
Proof.
  assert (H : monitor_jobs stuck_101 5 PyList true (cohort ["101"; "102"])
              = (Ok tt, (monitor_jobs stuck_101 5 PyList true
                                      (cohort ["101"; "102"])).2))
    by (vm_compute; reflexivity).
  split; [reflexivity|]. split; [exact H|].
  exact (monitor_jobs_empties_list stuck_101 5 true _ _ H).
Defined.

(** ** The matcher: what a greedy star returns *)

Lemma last_char_cons (prev : option ascii) (c : ascii) (a : list ascii) :
  last_char prev (c :: a) = last_char (Some c) a.
Proof.
  unfold last_char. destruct a as [|d a]; [reflexivity|].
  rewrite last_cons_cons. destruct (last (d :: a)) eqn:E; [reflexivity|].
  apply last_None in E. discriminate.
Qed.

Section Star.

Import PyRe.

Variable k : cclass.
Variable cont : option ascii -> list ascii -> nat -> option outcome.

(** A star that fails has failed after every run of the class. *)
Lemma star_none (s : list ascii) :
  forall prev n,
    star k cont prev s n = None ->
    forall a b, s = a ++ b -> all_in k a ->
      cont (last_char prev a) b (n + length a) = None.
Proof.
  induction s as [|c s IH]; intros prev n H a b Hs Ha.
  - symmetry in Hs. apply app_eq_nil in Hs as [-> ->].
    simpl in *. rewrite Nat.add_0_r. exact H.
  - simpl in H. destruct a as [|d a].
    + simpl in *. subst b. rewrite Nat.add_0_r.
      destruct (cmatch k c); [|exact H].
      destruct (star k cont (Some c) s (S n)); [discriminate | exact H].
    + simpl in Hs. injection Hs as -> ->.
      apply Forall_cons in Ha as [Hd Ha]. rewrite Hd in H.
      destruct (star k cont (Some d) (a ++ b) (S n)) eqn:E; [discriminate|].
      rewrite last_char_cons. simpl. rewrite Nat.add_succ_r.
      exact (IH (Some d) (S n) E a b eq_refl Ha).
Qed.

(** A star that succeeds has read a run of the class after which the rest of
    the pattern matches, and the rest fails after every longer run. *)
Lemma star_spec (s : list ascii) :
  forall prev n r,
    star k cont prev s n = Some r ->
    exists a b,
      s = a ++ b /\ all_in k a /\
      cont (last_char prev a) b (n + length a) = Some r /\
      forall a' b', s = a' ++ b' -> all_in k a' -> length a < length a' ->
        cont (last_char prev a') b' (n + length a') = None.
Proof.
  induction s as [|c s IH]; intros prev n r H.
  - simpl in H. exists [], []. simpl. rewrite Nat.add_0_r.
    repeat split; [constructor | exact H|].
    intros a' b' Hs _ Hlen. symmetry in Hs. apply app_eq_nil in Hs as [-> _].
    simpl in Hlen. lia.
  - simpl in H. destruct (cmatch k c) eqn:Hc.
    + destruct (star k cont (Some c) s (S n)) as [r'|] eqn:E.
      * injection H as <-.
        destruct (IH _ _ _ E) as (a & b & -> & Ha & Hr & Hmax).
        exists (c :: a), b. rewrite last_char_cons. simpl.
        rewrite Nat.add_succ_r. repeat split.
        -- constructor; assumption.
        -- exact Hr.
        -- intros a' b' Hs Ha' Hlen. destruct a' as [|d a']; [simpl in Hlen; lia|].
           simpl in Hs. injection Hs as <- Hs.
           apply Forall_cons in Ha' as [_ Ha'].
           rewrite last_char_cons. simpl. rewrite Nat.add_succ_r.
           apply Hmax; [exact Hs | exact Ha' | simpl in Hlen; lia].
      * exists [], (c :: s). simpl. rewrite Nat.add_0_r.
        repeat split; [constructor | exact H|].
        intros a' b' Hs Ha' Hlen. destruct a' as [|d a']; [simpl in Hlen; lia|].
        simpl in Hs. injection Hs as <- Hs.
        apply Forall_cons in Ha' as [_ Ha'].
        rewrite last_char_cons. simpl. rewrite Nat.add_succ_r.
        exact (star_none s (Some c) (S n) E a' b' Hs Ha').
    + exists [], (c :: s). simpl. rewrite Nat.add_0_r.
      repeat split; [constructor | exact H|].
      intros a' b' Hs Ha' Hlen. destruct a' as [|d a']; [simpl in Hlen; lia|].
      simpl in Hs. injection Hs as <- Hs.
      apply Forall_cons in Ha' as [Hd _]. congruence.
Qed.

End Star.

Section StarCap.

Import PyRe.

Variable k : cclass.
Variable cont :
  list ascii -> option ascii -> list ascii -> nat -> option outcome.

Lemma star_cap_sound (s : list ascii) :
  forall acc prev n r,
    star_cap k cont acc prev s n = Some r ->
    exists a b,
      s = a ++ b /\ all_in k a /\
      cont (acc ++ a) (last_char prev a) b (n + length a) = Some r.
Proof.
  induction s as [|c s IH]; intros acc prev n r H; simpl in H.
  - exists [], []. simpl. rewrite Nat.add_0_r, app_nil_r.
    repeat split; [constructor | exact H].
  - assert (Hstop : cont acc prev (c :: s) n = Some r ->
                    exists a b, c :: s = a ++ b /\ all_in k a /\
                      cont (acc ++ a) (last_char prev a) b (n + length a)
                      = Some r).
    { intros H'. exists [], (c :: s). simpl. rewrite Nat.add_0_r, app_nil_r.
      repeat split; [constructor | exact H']. }
    destruct (cmatch k c) eqn:Hc; [|auto].
    destruct (star_cap k cont (acc ++ [c]) (Some c) s (S n)) as [r'|] eqn:E;
      [|auto].
    injection H as <-.
    destruct (IH _ _ _ _ E) as (a & b & -> & Ha & Hr).
    exists (c :: a), b. rewrite last_char_cons. simpl.
    rewrite Nat.add_succ_r. rewrite <- app_assoc in Hr.
    repeat split; [constructor; assumption | exact Hr].
Qed.

(** The group takes the whole run when the rest matches after it and the run
    cannot be extended. *)
Lemma star_cap_all (a : list ascii) :
  forall acc prev n b r,
    all_in k a ->
    match b with [] => True | c :: _ => cmatch k c = false end ->
    cont (acc ++ a) (last_char prev a) b (n + length a) = Some r ->
    star_cap k cont acc prev (a ++ b) n = Some r.
Proof.
  induction a as [|c a IH]; intros acc prev n b r Ha Hb Hr.
  - simpl in *. rewrite Nat.add_0_r, app_nil_r in Hr.
    destruct b as [|d b]; simpl; [exact Hr|]. rewrite Hb. exact Hr.
  - apply Forall_cons in Ha as [Hc Ha]. simpl. rewrite Hc.
    rewrite (IH (acc ++ [c]) (Some c) (S n) b r Ha Hb); [reflexivity|].
    rewrite <- app_assoc. simpl.
    rewrite last_char_cons in Hr. simpl in Hr. rewrite Nat.add_succ_r in Hr.
    exact Hr.
Qed.

End StarCap.

(** ** The status pattern *)

Lemma space_not_alpha (c : ascii) :
  PyRe.is_space c = true -> PyRe.is_alpha c = false.
Proof. destruct c as [[] [] [] [] [] [] [] []]; vm_compute; congruence. Qed.

Section StatusTail.

Import PyRe.

Lemma star_dot_eol (cap : option (list ascii)) (s : list ascii) :
  forall prev n, exists m,
    star CDot (rmatch [AEol] cap) prev s n = Some (m, cap).
Proof.
  set (cont := rmatch [AEol] cap).
  assert (Hcont : forall prev s n,
            at_eol s = true -> cont prev s n = Some (n, cap)).
  { intros prev s' n H. unfold cont. simpl. rewrite H. reflexivity. }
  induction s as [|c s IH]; intros prev n; cbn [star].
  - exists n. apply Hcont. reflexivity.
  - destruct (cmatch CDot c) eqn:E.
    + destruct (IH (Some c) (S n)) as [m ->]. eauto.
    + exists n. apply Hcont. simpl in *. apply negb_false_iff in E. exact E.
Qed.

Lemma status_tail_sound (cap : option (list ascii)) (prev : option ascii)
    (s : list ascii) (n : nat) (o : outcome) :
  rmatch status_tail cap prev s n = Some o ->
  exists tok, token_at s tok /\ o.2 = Some tok.
Proof.
  unfold status_tail. simpl. intros H.
  destruct s as [|w1 s]; [discriminate|].
  destruct (is_space w1) eqn:Hw1; [|discriminate].
  destruct s as [|c s]; [discriminate|].
  destruct (is_alpha c) eqn:Hc; [|discriminate].
  apply star_cap_sound in H as (a & b & -> & Ha & H). simpl in H.
  destruct b as [|w2 post]; [discriminate|].
  destruct (is_space w2) eqn:Hw2; [|discriminate].
  destruct (star_dot_eol (Some (c :: a)) post (Some w2)
              (S (S (S n) + length a))) as [m Hm].
  simpl in Hm. rewrite Hm in H. injection H as <-.
  exists (c :: a). split; [|reflexivity].
  exists w1, w2, post. repeat split; try assumption; [discriminate|].
  constructor; assumption.
Qed.

Lemma status_tail_complete (cap : option (list ascii)) (prev : option ascii)
    (s tok : list ascii) (n : nat) :
  token_at s tok ->
  exists m, rmatch status_tail cap prev s n = Some (m, Some tok).
Proof.
  intros (w1 & w2 & post & -> & Hw1 & Hw2 & Hne & Ha).
  destruct tok as [|c tok]; [congruence|].
  apply Forall_cons in Ha as [Hc Ha]. simpl in Hc.
  unfold status_tail. simpl. rewrite Hw1, Hc.
  destruct (star_dot_eol (Some (c :: tok)) post (Some w2)
              (S (S (S n) + length tok))) as [m Hm].
  exists m. apply star_cap_all.
  - exact Ha.
  - simpl. apply space_not_alpha. exact Hw2.
  - simpl. rewrite Hw2. exact Hm.
Qed.

End StatusTail.

Section StatusPattern.

Import PyRe.

Lemma rmatch_literal (l : list ascii) (r : regex) :
  forall cap prev s n o,
    rmatch (literal l ++ r) cap prev s n = Some o ->
    exists b, s = l ++ b /\
      rmatch r cap (last_char prev l) b (n + length l) = Some o.
Proof.
  induction l as [|c l IH]; intros cap prev s n o H.
  - exists s. simpl in *. rewrite Nat.add_0_r. auto.
  - change (literal (c :: l) ++ r) with (AOne (CChar c) :: (literal l ++ r)) in H.
    cbn [rmatch] in H. destruct s as [|d s]; [discriminate|].
    destruct (cmatch (CChar c) d) eqn:E; [|discriminate].
    simpl in E. apply Ascii.eqb_eq in E as ->.
    apply IH in H as (b & -> & H). exists b. rewrite last_char_cons. simpl.
    rewrite Nat.add_succ_r. auto.
Qed.

Lemma search_from_sound (r : regex) (s : list ascii) :
  forall prev o,
    search_from r prev s = Some o ->
    exists sk s', s = sk ++ s' /\
      rmatch r None (last_char prev sk) s' 0 = Some o.
Proof.
  induction s as [|c s IH]; intros prev o H; simpl in H.
  - destruct (rmatch r None prev [] 0) eqn:E; [|discriminate].
    injection H as <-. exists [], []. auto.
  - destruct (rmatch r None prev (c :: s) 0) eqn:E.
    + injection H as <-. exists [], (c :: s). auto.
    + apply IH in H as (sk & s' & -> & H). exists (c :: sk), s'.
      rewrite last_char_cons. auto.
Qed.

(** After the identifier, [.*] is greedy: the token found is the last one. *)
Lemma after_id_spec (cap : option (list ascii)) (prev : option ascii)
    (s : list ascii) (n : nat) (o : outcome) :
  rmatch (AStar CDot :: status_tail) cap prev s n = Some o ->
  all_in CDot s ->
  exists mid b tok,
    s = mid ++ b /\ token_at b tok /\ o.2 = Some tok /\
    forall x y tok', b = x ++ y -> x <> [] -> ~ token_at y tok'.
Proof.
  cbn [rmatch]. intros H Hs.
  apply star_spec in H as (a & b & -> & Ha & Hr & Hmax).
  apply status_tail_sound in Hr as (tok & Htok & Ho).
  exists a, b, tok. repeat split; try assumption.
  intros x y tok' -> Hx Hy.
  apply (status_tail_complete cap (last_char prev (a ++ x)) y tok'
           (n + length (a ++ x))) in Hy as [m Hm].
  rewrite Hmax in Hm; [discriminate | apply app_assoc | |].
  - apply Forall_app in Hs as [_ Hs]. apply Forall_app in Hs as [Hs _].
    apply Forall_app. auto.
  - rewrite length_app. destruct x; [congruence | simpl; lia].
Qed.

Lemma status_pattern_spec (i : string) (prev : option ascii)
    (s : list ascii) (o : outcome) :
  rmatch (status_pattern i) None prev s 0 = Some o ->
  all_in CDot s ->
  exists tok, o.2 = Some tok /\ last_token_after (chars i) s tok.
Proof.
  unfold status_pattern.
  change ([ABol; AStar CDot; AStar CSpace] ++ literal (chars i)
          ++ [AStar CDot; AOne CSpace; AGroupPlus CAlpha; AOne CSpace;
              AStar CDot; AEol])
    with (ABol :: AStar CDot :: AStar CSpace
          :: (literal (chars i) ++ AStar CDot :: status_tail)).
  cbn [rmatch]. intros H Hs.
  destruct (at_bol prev); [|discriminate].
  apply star_spec in H as (a1 & b1 & -> & _ & H & _).
  apply star_spec in H as (a2 & b2 & -> & _ & H & _).
  apply rmatch_literal in H as (b3 & -> & H).
  apply after_id_spec in H as (mid & b & tok & -> & Htok & Ho & Hlast).
  - exists tok. split; [exact Ho|].
    exists (a1 ++ a2), mid, b. rewrite <- !app_assoc. auto.
  - apply Forall_app in Hs as [_ Hs]. apply Forall_app in Hs as [_ Hs].
    apply Forall_app in Hs as [_ Hs]. exact Hs.
Qed.

End StatusPattern.

(** The text of [str(entry)] has no newline: [repr] escapes it. *)
Lemma repr_char_no_newline (c : ascii) :
  all_in PyRe.CDot (PyStr.repr_char PyStr.quote c) /\
  all_in PyRe.CDot (PyStr.repr_char PyStr.dquote c).
Proof.
  destruct c as [[] [] [] [] [] [] [] []]; vm_compute; split;
    repeat constructor.
Qed.

Lemma repr_no_newline (s : list ascii) : all_in PyRe.CDot (PyStr.repr s).
Proof.
  unfold PyStr.repr.
  destruct (PyStr.has_char PyStr.quote s && negb (PyStr.has_char PyStr.dquote s));
    (constructor; [reflexivity|]); apply Forall_app;
    (split; [|repeat constructor]); apply Forall_concat, Forall_map;
    apply Forall_forall; intros c _; apply repr_char_no_newline.
Qed.

Lemma join_no_newline (sep : list ascii) (l : list (list ascii)) :
  all_in PyRe.CDot sep -> Forall (all_in PyRe.CDot) l ->
  all_in PyRe.CDot (PyStr.join sep l).
Proof.
  intros Hsep. induction 1 as [|x l Hx Hl IH]; [constructor|].
  simpl. destruct l as [|y l]; [exact Hx|].
  apply Forall_app. split; [exact Hx|]. apply Forall_app. split; assumption.
Qed.

Lemma str_list_no_newline (l : list (list ascii)) :
  all_in PyRe.CDot (PyStr.str_list l).
Proof.
  unfold PyStr.str_list. constructor; [reflexivity|].
  apply Forall_app. split; [|repeat constructor].
  apply join_no_newline; [repeat constructor|].
  apply Forall_map, Forall_forall. intros s _. apply repr_no_newline.
Qed.

(** What [parse_status] answers, when it answers. *)
Lemma parse_status_Some (i : string) (entry : list string) (t : string) :
  parse_status i entry = Some t ->
  last_token_after (chars i) (PyStr.str_list (map chars entry)) (chars t).
Proof.
  unfold parse_status, PyRe.search. intros H.
  destruct (PyRe.search_from _ _ _) as [[m [g|]]|] eqn:E; try discriminate.
  injection H as <-.
  apply search_from_sound in E as (sk & s & Hs & E).
  pose proof (str_list_no_newline (map chars entry)) as Hn.
  rewrite Hs in Hn. apply Forall_app in Hn as [_ Hn].
  apply status_pattern_spec in E as (tok & Ho & pre & mid & b & -> & Hl);
    [|exact Hn].
  simpl in Ho. injection Ho as ->.
  replace (chars (text tok)) with tok
    by (symmetry; apply list_ascii_of_string_of_list_ascii).
  exists (sk ++ pre), mid, b. rewrite Hs, <- app_assoc. auto.
Qed.

(** ** The [for] loop always ends

    The methods of [Job] have no loop; the [for] loop of a cycle ends within
    as many iterations as the list has elements when the cycle starts, since
    the index grows and the list does not. *)

Section Returns.

Variable qstat_output : nat -> string.

Lemma returns_bind {A B : Type} (m : M A) (k : A -> M B) :
  returns m -> (forall a, returns (k a)) -> returns (m ≫= k).
Proof.
  intros Hm Hk w. unfold mbind, M_bind, bind. specialize (Hm w).
  destruct (m w) as [[a|e|] w1]; simpl in *; [apply Hk | discriminate | congruence].
Qed.

Ltac returns_step :=
  match goal with
  | |- returns (mbind _ _) => apply returns_bind; [|intros ?]
  | |- returns (if ?b then _ else _) => destruct b
  | |- returns (match ?x with _ => _ end) => destruct x
  | |- returns (setattr _ _) => unfold setattr
  | |- returns (getattr ?a) => destruct a; intros ?; discriminate
  | |- returns (read _) =>
      let w := fresh "w" in
      intros w; unfold read; destruct (heap w !! _); discriminate
  | |- returns (get_state_shared _) =>
      let w := fresh "w" in
      intros w; unfold get_state_shared; destruct (get_state _ _); discriminate
  | |- returns _ => intros ?; discriminate
  end.

Lemma returns_get_job (i : string) (q : option string) :
  returns (get_job qstat_output i q).
Proof. unfold get_job. repeat returns_step. Qed.

Lemma returns_update (self : handle) : returns (_update qstat_output self).
Proof.
  unfold _update, get_status, get_is_present.
  repeat first [apply returns_get_job | returns_step].
Qed.

Lemma returns_present (self : handle) : returns (present qstat_output self).
Proof. unfold present. repeat first [apply returns_update | returns_step]. Qed.

Lemma returns_error (self : handle) : returns (error qstat_output self).
Proof. unfold error. repeat first [apply returns_update | returns_step]. Qed.

Lemma returns_list_remove (x : handle) : returns (list_remove x).
Proof. unfold list_remove. repeat returns_step. Qed.

Lemma returns_list_pop (i : nat) : returns (list_pop i).
Proof. unfold list_pop. repeat returns_step. Qed.

(** One step of a sequence, under a bound on the list. *)
Lemma bounded_step {A B : Type} (m : M A) (k : A -> M B) (w : world)
    (bound : nat) :
  returns m -> keeps not_longer m ->
  length (jobs_list w) <= bound ->
  (forall a w1, length (jobs_list w1) <= bound -> (k a w1).1 <> Diverge) ->
  ((m ≫= k) w).1 <> Diverge.
Proof.
  intros Hm Hl Hw Hk. unfold mbind, M_bind, bind.
  specialize (Hm w). specialize (Hl w). unfold not_longer in Hl.
  destruct (m w) as [[a|e|] w1]; simpl in *; [|discriminate|congruence].
  apply Hk. lia.
Qed.

Lemma not_longer_present (h : handle) :
  keeps not_longer (present qstat_output h).
Proof. apply keeps_present; frame_solve. Qed.

Lemma not_longer_error (h : handle) :
  keeps not_longer (error qstat_output h).
Proof. apply keeps_error; frame_solve. Qed.

Lemma for_jobs_returns (n : nat) :
  forall i err_jobs w,
    length (jobs_list w) <= i + n ->
    (for_jobs qstat_output n i err_jobs w).1 <> Diverge.
Proof.
  induction n as [|n IH]; intros i errs w Hw.
  - simpl. unfold mbind, M_bind, bind, get_jobs.
    destruct (jobs_list w !! i) eqn:E; [|discriminate].
    apply lookup_lt_Some in E. lia.
  - cbn [for_jobs]. unfold mbind at 1, M_bind at 1, bind at 1, get_jobs at 1.
    destruct (jobs_list w !! i) as [job|]; [|discriminate].
    apply (bounded_step _ _ w (i + S n));
      [apply returns_present | apply not_longer_present | exact Hw|].
    intros p w1 Hw1.
    apply (bounded_step _ _ w1 (i + S n)); [| |exact Hw1|].
    { destruct (negb p); [apply returns_list_remove | intros ?; discriminate]. }
    { destruct (negb p); [apply not_longer_remove | frame_solve]. }
    intros _ w2 Hw2.
    apply (bounded_step _ _ w2 (i + S n));
      [apply returns_error | apply not_longer_error | exact Hw2|].
    intros e w3 Hw3.
    apply (bounded_step _ _ w3 (i + S n)); [| |exact Hw3|].
    { destruct e; [|intros ?; discriminate].
      apply returns_bind; [apply returns_list_pop | intros ? ?; discriminate]. }
    { destruct e; [|frame_solve].
      apply keeps_bind; [frame_solve | apply not_longer_pop | frame_solve]. }
    intros errs' w4 Hw4. apply IH. lia.
Qed.

(** A poll cycle never runs out of fuel. *)
Lemma poll_cycle_returns (err_jobs : list handle) :
  returns (poll_cycle qstat_output err_jobs).
Proof.
  intros w. unfold poll_cycle, mbind, M_bind, bind, get_jobs.
  apply for_jobs_returns. lia.
Qed.

End Returns.

(** ** The status parser *)

(** What [get_job] finds. *)
Section Entries.

Import PyRe.

Lemma findall_from_sound (r : regex) (s : list ascii) :
  forall prev skip,
    Forall (fun x => exists prev' s' m c,
                rmatch r None prev' s' 0 = Some (m, c) /\ x = take m s')
           (findall_from r prev s skip).
Proof.
  induction s as [|c s IH]; intros prev skip; simpl.
  - destruct skip; [destruct (rmatch r None prev [] 0) as [[[|m] g]|]|];
      constructor.
  - destruct skip as [|k].
    + destruct (rmatch r None prev (c :: s) 0) as [[[|m] g]|] eqn:E;
        try apply IH.
      constructor; [|apply IH].
      exists prev, (c :: s), (S m), g. auto.
    + apply IH.
Qed.

Lemma job_pattern_sound (i : string) (prev : option ascii) (s : list ascii)
    (m : nat) (c : option (list ascii)) :
  rmatch (job_pattern i) None prev s 0 = Some (m, c) ->
  exists ws w rest,
    take m s = ws ++ chars i ++ w :: rest /\
    all_in CSpace ws /\ is_space w = true /\ all_in CDot rest.
Proof.
  unfold job_pattern.
  change ([ABol; AStar CSpace] ++ literal (chars i)
          ++ [AOne CSpace; AStar CDot; AEol])
    with (ABol :: AStar CSpace
          :: (literal (chars i) ++ [AOne CSpace; AStar CDot; AEol])).
  cbn [rmatch]. intros H.
  destruct (at_bol prev); [|discriminate].
  apply star_spec in H as (ws & b1 & -> & Hws & H & _).
  apply rmatch_literal in H as (b2 & -> & H).
  cbn [rmatch] in H. destruct b2 as [|w b3]; [discriminate|].
  destruct (cmatch CSpace w) eqn:Hw; [|discriminate].
  apply star_spec in H as (rest & tl & -> & Hrest & H & _).
  simpl in H. destruct (at_eol tl); [|discriminate]. injection H as <- _.
  exists ws, w, rest. repeat split; try assumption.
  replace (ws ++ chars i ++ w :: rest ++ tl)
    with ((ws ++ chars i ++ w :: rest) ++ tl)
    by (rewrite <- !app_assoc; reflexivity).
  apply take_app_length'. rewrite !length_app. simpl.
  rewrite ?length_app. simpl. lia.
Qed.

End Entries.

Lemma find_entries_sound (i snapshot : string) :
  Forall (entry_of i) (find_entries i snapshot).
Proof.
  unfold find_entries, PyRe.findall. apply Forall_map.
  eapply Forall_impl; [apply findall_from_sound|].
  intros x (prev & s & m & c & H & ->). simpl.
  apply job_pattern_sound in H as (ws & w & rest & H & Hws & Hw & Hrest).
  exists ws, w, rest. repeat split; try assumption.
  unfold chars, text in *. rewrite list_ascii_of_string_of_list_ascii. exact H.
Qed.

Lemma parse_status_nil (i : string) : parse_status i [] = None.
Proof.
  destruct (parse_status i []) as [t|] eqn:E; [|reflexivity].
  apply parse_status_Some in E as (pre & mid & b & HR & Htok & _).
  destruct Htok as (w1 & w2 & post & -> & Hw1 & _).
  assert (Hin : In w1 (PyStr.str_list (map chars []))).
  { rewrite HR. rewrite !in_app_iff. right. right. right. left. reflexivity. }
  simpl in Hin. destruct Hin as [<-|[<-|[]]]; discriminate Hw1.
Qed.

Section Parser.

Variable qstat_output : nat -> string.

(** What [get_status] and [get_is_present] answer in general, for an
    identifier of letters and digits and a snapshot that is not empty, with
    [entry] the entries [get_job] finds: each entry starts with the identifier
    as its first whitespace-delimited field; both answer without a further
    query; when no entry matches, the status is absent and the job is not
    present, and it is present otherwise; a status that is returned is a run
    of letters between two whitespace characters that comes after the
    identifier in [str(entry)], and it is the last such token of that text. *)
Theorem status_is_last_token (i snapshot : string) (w : world) :
  plain_id i = true ->
  snapshot <> "" ->
  let entry := find_entries i snapshot in
  exists st,
    Forall (entry_of i) entry /\
    get_status qstat_output i (Some entry) (Some snapshot) w = (Ok st, w) /\
    get_is_present qstat_output i (Some entry) (Some snapshot) w
    = (Ok (negb (bool_decide (entry = []))), w) /\
    (entry = [] -> st = None) /\
    (forall t, st = Some t ->
       last_token_after (chars i) (PyStr.str_list (map chars entry)) (chars t)).
Proof.
  intros _ Hs entry. exists (parse_status i entry).
  assert (Hq : not_str (Some snapshot) = false)
    by (apply bool_decide_eq_false_2; exact Hs).
  assert (Hg : get_job qstat_output i (Some snapshot) w = (Ok entry, w)).
  { unfold get_job, mbind, M_bind, bind. rewrite Hq. reflexivity. }
  repeat split.
  - apply find_entries_sound.
  - unfold get_status, mbind, M_bind, bind.
    destruct entry as [|e l] eqn:E; simpl; [|reflexivity].
    rewrite Hg. reflexivity.
  - unfold get_is_present, mbind, M_bind, bind.
    destruct entry as [|e l] eqn:E; simpl; [|reflexivity].
    rewrite Hg. reflexivity.
  - intros ->. apply parse_status_nil.
  - intros t Ht. apply parse_status_Some. exact Ht.
Qed.

End Parser.

(** C6. The status is not taken from the first matching entry. On a listing
    with two entries for job 101, the first in state [r] and the second in
    [qw] (an array job), [get_job] finds both; the status column of the first
    entry alone is [r]; [get_status], given the entries or finding them
    itself, returns [qw], the token of the last entry, because it searches
    [str(entry)], the text of the whole list on one line, where the greedy
    [.*] runs to the last token; the sibling [get_job_status], which searches
    the listing itself line by line, returns [r], the status of the first
    entry. *)
Theorem status_taken_from_last_entry :
  let e1 := qstat_entry "101" "r" in
  let e2 := qstat_entry "101" "qw" in
  let w := cohort ["101"] in
  find_entries "101" listed_twice = [e1; e2] /\
  parse_status "101" [e1] = Some "r" /\
  get_status only_102 "101" (Some [e1; e2]) (Some listed_twice) w
  = (Ok (Some "qw"), w) /\
  get_status only_102 "101" None (Some listed_twice) w
  = (Ok (Some "qw"), w) /\
  get_job_status only_102 "101" (Some listed_twice) w = (Ok (Some "r"), w).
Proof. vm_compute. repeat split. Qed.

(** The same run, seen from the first entry. *)
Lemma status_not_from_first_entry :
  let e1 := qstat_entry "101" "r" in
  let e2 := qstat_entry "101" "qw" in
  find_entries "101" listed_twice = [e1; e2] /\
  parse_status "101" [e1] = Some "r" /\
  (get_status only_102 "101" (Some [e1; e2]) (Some listed_twice)
              (cohort ["101"])).1 = Ok (Some "qw").
Proof. vm_compute. repeat split. Qed.

(** The parser on a listing where job 101 appears once, running. *)
Lemma status_is_last_token_witness :
  let i := "101" in
  let snapshot := listing [("101", "r")] in
  let w := cohort ["101"] in
  let entry := find_entries i snapshot in
  plain_id i = true /\
  snapshot <> "" /\
  exists st,
    Forall (entry_of i) entry /\
    get_status only_102 i (Some entry) (Some snapshot) w = (Ok st, w) /\
    get_is_present only_102 i (Some entry) (Some snapshot) w
    = (Ok (negb (bool_decide (entry = []))), w) /\
    (entry = [] -> st = None) /\
    (forall t, st = Some t ->
       last_token_after (chars i) (PyStr.str_list (map chars entry)) (chars t)).
Proof.
  assert (H1 : plain_id "101" = true) by reflexivity.
  assert (H2 : listing [("101", "r")] <> "") by discriminate.
  split; [exact H1|]. split; [exact H2|].
  exact (status_is_last_token only_102 "101" (listing [("101", "r")])
           (cohort ["101"]) H1 H2).
Defined.

(** The usual listing: the status column is the last run of letters. *)
Example status_of_running_job :
  parse_status "101" (find_entries "101" (listing [("101", "r"); ("102", "qw")]))
  = Some "r".
Proof. vm_compute. reflexivity. Qed.

Example status_of_missing_job :
  find_entries "103" (listing [("101", "r"); ("102", "qw")]) = [].
Proof. vm_compute. reflexivity. Qed.

(** ** The answer of [qsub] *)

Lemma chars_app (a b : string) : chars (a +:+ b) = chars a ++ chars b.
Proof.
  unfold chars. induction a as [|c a IH]; simpl; [reflexivity|].
  rewrite IH. reflexivity.
Qed.

Lemma text_chars (s : string) : text (chars s) = s.
Proof. apply string_of_list_ascii_of_string. Qed.

Lemma chars_text (l : list ascii) : chars (text l) = l.
Proof. apply list_ascii_of_string_of_list_ascii. Qed.

(** Reading a run that holds no whitespace only extends the current field. *)
Lemma split_from_run (tok : list ascii) :
  forall cur s,
    Forall (fun c => PyRe.is_space c = false) tok ->
    split_from cur (tok ++ s) = split_from (cur ++ tok) s.
Proof.
  induction tok as [|c tok IH]; intros cur s H; simpl.
  - rewrite app_nil_r. reflexivity.
  - apply Forall_cons in H as [Hc H]. rewrite Hc, IH by exact H.
    rewrite <- app_assoc. reflexivity.
Qed.

(** A whitespace character closes the current field, if there is one. *)
Lemma split_from_field (tok s : list ascii) (w : ascii) :
  Forall (fun c => PyRe.is_space c = false) tok -> tok <> [] ->
  PyRe.is_space w = true ->
  split_from [] (tok ++ w :: s) = tok :: split_from [] s.
Proof.
  intros Htok Hne Hw. rewrite split_from_run by exact Htok. simpl.
  rewrite Hw. destruct tok; [congruence | reflexivity].
Qed.

Lemma split_from_last (tok : list ascii) :
  Forall (fun c => PyRe.is_space c = false) tok -> tok <> [] ->
  split_from [] tok = [tok].
Proof.
  intros Htok Hne. rewrite <- (app_nil_r tok) at 1.
  rewrite split_from_run by exact Htok. simpl.
  destruct tok; [congruence | reflexivity].
Qed.

Lemma sub_close_closed (s : list ascii) :
  sub_close (s ++ [PyStr.dquote; ")"%char]) = s.
Proof.
  unfold sub_close. rewrite reverse_app. simpl.
  rewrite ?Ascii.eqb_refl. simpl. rewrite reverse_involutive. reflexivity.
Qed.

(** [split] undoes a [join] on a whitespace character of fields that are
    not empty and hold no whitespace. *)
Lemma py_split_join (w : ascii) (fields : list (list ascii)) :
  PyRe.is_space w = true ->
  Forall (fun f => f <> [] /\ Forall (fun c => PyRe.is_space c = false) f)
         fields ->
  py_split (PyStr.join [w] fields) = fields.
Proof.
  intros Hw. unfold py_split.
  induction 1 as [|f l [Hne Hf] Hl IH]; [reflexivity|].
  destruct l as [|g l].
  - simpl. apply split_from_last; assumption.
  - change (PyStr.join [w] (f :: g :: l))
      with (f ++ w :: PyStr.join [w] (g :: l)).
    rewrite split_from_field by assumption. rewrite IH. reflexivity.
Qed.

Lemma chars_qsub_answer (job_id job_name : string) :
  chars (qsub_answer job_id job_name)
  = PyStr.join [" "%char]
      [chars "Your"; chars "job"; chars job_id;
       "("%char :: PyStr.dquote :: chars job_name ++ [PyStr.dquote; ")"%char];
       chars "has"; chars "been"; chars "submitted"].
Proof.
  unfold qsub_answer. rewrite !chars_app, !chars_text. cbn.
  rewrite <- !app_assoc. reflexivity.
Qed.

(** X1. [get_job_ID_name] reads back the identifier and the name from the
    line [qsub] prints, for an identifier that is not empty and a name, both
    without whitespace. *)
Theorem get_job_ID_name_qsub_answer (job_id job_name : string) :
  job_id <> "" -> no_space job_id -> no_space job_name ->
  get_job_ID_name (qsub_answer job_id job_name) = Ok (job_id, job_name).
Proof.
  intros Hne Hid Hname. unfold get_job_ID_name.
  rewrite chars_qsub_answer, py_split_join; [|reflexivity|].
  - cbn [lookup list_lookup]. simpl sub_open.
    rewrite sub_close_closed, !text_chars. reflexivity.
  - repeat (constructor; [split; [discriminate | repeat constructor]|]).
    constructor.
    { split; [|exact Hid]. intros E. apply Hne.
      rewrite <- (text_chars job_id), E. reflexivity. }
    constructor.
    { split; [discriminate|]. constructor; [reflexivity|].
      constructor; [reflexivity|].
      apply Forall_app. split; [exact Hname | repeat constructor]. }
    repeat (constructor; [split; [discriminate | repeat constructor]|]).
    constructor.
Qed.

(** ** The matcher: where a match starts and how much it reads *)

Section Matcher.

Import PyRe.

Lemma rmatch_literal_eq (l : list ascii) (r : regex) :
  forall cap prev b n,
    rmatch (literal l ++ r) cap prev (l ++ b) n
    = rmatch r cap (last_char prev l) b (n + length l).
Proof.
  induction l as [|c l IH]; intros cap prev b n.
  - simpl. rewrite Nat.add_0_r. reflexivity.
  - change (literal (c :: l) ++ r) with (AOne (CChar c) :: (literal l ++ r)).
    cbn [rmatch app]. simpl cmatch. rewrite Ascii.eqb_refl, IH.
    rewrite last_char_cons. simpl. rewrite Nat.add_succ_r. reflexivity.
Qed.

Lemma rmatch_one_inv (k : cclass) (r : regex) (cap : option (list ascii))
    (prev : option ascii) (s : list ascii) (n : nat) (o : outcome) :
  rmatch (AOne k :: r) cap prev s n = Some o ->
  exists x s', s = x :: s' /\ cmatch k x = true /\
    rmatch r cap (Some x) s' (S n) = Some o.
Proof.
  cbn [rmatch]. destruct s as [|x s']; [discriminate|].
  destruct (cmatch k x) eqn:E; [|discriminate]. eauto.
Qed.

(** A match reads no more than the text holds. *)
Lemma rmatch_count (r : regex) :
  forall cap prev s n m c,
    rmatch r cap prev s n = Some (m, c) -> n <= m <= n + length s.
Proof.
  induction r as [|a r IH]; intros cap prev s n m c H.
  - injection H as <- _. lia.
  - destruct a as [| |k|k|k]; cbn [rmatch] in H.
    + destruct (at_bol prev); [eauto | discriminate].
    + destruct (at_eol s); [eauto | discriminate].
    + destruct s as [|x s]; [discriminate|].
      destruct (cmatch k x); [|discriminate].
      apply IH in H. simpl. lia.
    + apply star_spec in H as (a & b & -> & _ & H & _).
      apply IH in H. rewrite length_app. lia.
    + destruct s as [|x s]; [discriminate|].
      destruct (cmatch k x); [|discriminate].
      apply star_cap_sound in H as (a & b & -> & _ & H).
      apply IH in H. simpl. rewrite length_app. lia.
Qed.

(** Every text [findall] returns is a match at some position of the text. *)
Lemma findall_from_suffix (r : regex) (s : list ascii) :
  forall prev skip,
    Forall (fun x => exists a s' m c,
                s = a ++ s' /\
                rmatch r None (last_char prev a) s' 0 = Some (m, c) /\
                x = take m s')
           (findall_from r prev s skip).
Proof.
  induction s as [|d s IH]; intros prev skip; simpl.
  - destruct skip; [destruct (rmatch r None prev [] 0) as [[[|m] g]|]|];
      constructor.
  - assert (Htl : forall k,
              Forall (fun x => exists a s' m c,
                          d :: s = a ++ s' /\
                          rmatch r None (last_char prev a) s' 0 = Some (m, c) /\
                          x = take m s')
                     (findall_from r (Some d) s k)).
    { intros k. eapply Forall_impl; [apply IH|].
      intros x (a & s' & m & c & -> & H & ->).
      exists (d :: a), s', m, c. rewrite last_char_cons. auto. }
    destruct skip as [|k]; [|apply Htl].
    destruct (rmatch r None prev (d :: s) 0) as [[[|m] g]|] eqn:E;
      try apply Htl.
    constructor; [|apply Htl].
    exists [], (d :: s), (S m), g. auto.
Qed.

(** A match that reads something, at any position, makes the result of
    [findall] not empty. *)
Lemma findall_from_found (r : regex) (a : list ascii) :
  forall prev b m c,
    rmatch r None (last_char prev a) b 0 = Some (S m, c) ->
    findall_from r prev (a ++ b) 0 <> [].
Proof.
  induction a as [|d a IH]; intros prev b m c H.
  - change (last_char prev []) with prev in H.
    pose proof (rmatch_count _ _ _ _ _ _ _ H) as Hc.
    destruct b as [|x b]; [simpl in Hc; lia|].
    simpl. rewrite H. discriminate.
  - rewrite last_char_cons in H. simpl.
    destruct (rmatch r None prev (d :: a ++ b) 0) as [[[|m'] g]|];
      try discriminate; simpl; eapply IH; exact H.
Qed.

(** Every text splits into whole lines and the start of a last line. *)
Lemma line_start_split (x : list ascii) :
  exists pre a, x = pre ++ a /\ line_start pre /\ all_in CDot a.
Proof.
  induction x as [|c x IH] using rev_ind.
  - exists [], []. repeat split. constructor.
  - destruct IH as (pre & a & -> & Hpre & Ha).
    destruct (Ascii.eqb c newline) eqn:E.
    + exists ((pre ++ a) ++ [c]), []. rewrite app_nil_r.
      repeat split; [|constructor].
      unfold line_start, last_char. rewrite last_snoc. exact E.
    + exists pre, (a ++ [c]). rewrite app_assoc. repeat split; [exact Hpre|].
      apply Forall_app. split; [exact Ha|]. constructor; [|constructor].
      simpl. rewrite E. reflexivity.
Qed.

End Matcher.

(** ** The functions on identifiers *)

Section Patterns.

Import PyRe.

Lemma chars_nonempty (i : string) : i <> "" -> chars i <> [].
Proof.
  intros Hne E. apply Hne. rewrite <- (text_chars i), E. reflexivity.
Qed.

Lemma star_dot_eol_Some (cap : option (list ascii)) (prev : option ascii)
    (s : list ascii) (n : nat) :
  exists m, rmatch [AStar CDot; AEol] cap prev s n = Some (m, cap).
Proof. cbn [rmatch]. apply star_dot_eol. Qed.

(** A greedy star does not fail when the rest matches after some run. *)
Lemma star_Some (k : cclass)
    (cont : option ascii -> list ascii -> nat -> option outcome)
    (prev : option ascii) (a b : list ascii) (n : nat) (o : outcome) :
  all_in k a ->
  cont (last_char prev a) b (n + length a) = Some o ->
  exists o', star k cont prev (a ++ b) n = Some o'.
Proof.
  intros Ha Ho. destruct (star k cont prev (a ++ b) n) as [o'|] eqn:E; [eauto|].
  rewrite (star_none k cont (a ++ b) prev n E a b eq_refl Ha) in Ho.
  discriminate.
Qed.

Lemma listed_pattern_sound (i : string) (prev : option ascii)
    (s : list ascii) (m : nat) (c : option (list ascii)) :
  rmatch (listed_pattern i) None prev s 0 = Some (m, c) ->
  exists a rest, s = a ++ chars i ++ rest /\ length (chars i) <= m.
Proof.
  unfold listed_pattern.
  change ([ABol; AStar CDot] ++ literal (chars i) ++ [AStar CDot; AEol])
    with (ABol :: AStar CDot :: (literal (chars i) ++ [AStar CDot; AEol])).
  cbn [rmatch]. intros H. destruct (at_bol prev); [|discriminate].
  apply star_spec in H as (a & b & -> & _ & H & _).
  apply rmatch_literal in H as (rest & -> & H).
  apply rmatch_count in H. exists a, rest. split; [reflexivity | lia].
Qed.

Lemma listed_pattern_complete (i : string) (prev : option ascii)
    (a rest : list ascii) :
  at_bol prev = true -> all_in CDot a ->
  exists o, rmatch (listed_pattern i) None prev (a ++ chars i ++ rest) 0 = Some o.
Proof.
  intros Hb Ha. unfold listed_pattern.
  change ([ABol; AStar CDot] ++ literal (chars i) ++ [AStar CDot; AEol])
    with (ABol :: AStar CDot :: (literal (chars i) ++ [AStar CDot; AEol])).
  cbn [rmatch]. rewrite Hb.
  destruct (star_dot_eol_Some None (last_char (last_char prev a) (chars i))
              rest (0 + length a + length (chars i))) as [m Hm].
  eapply star_Some; [exact Ha|]. rewrite rmatch_literal_eq. exact Hm.
Qed.

Lemma desired_pattern_sound (i st : string) (prev : option ascii)
    (s : list ascii) (o : outcome) :
  rmatch (desired_pattern i st) None prev s 0 = Some o ->
  at_bol prev = true /\
  exists a b w1 w2 rest,
    s = a ++ chars i ++ b ++ w1 :: chars st ++ w2 :: rest /\
    all_in CDot a /\ all_in CDot b /\
    is_space w1 = true /\ is_space w2 = true /\ 1 <= o.1.
Proof.
  unfold desired_pattern.
  change ([ABol; AStar CDot] ++ literal (chars i)
          ++ [AStar CDot; AOne CSpace] ++ literal (chars st)
          ++ [AOne CSpace; AStar CDot; AEol])
    with (ABol :: AStar CDot
          :: (literal (chars i)
              ++ AStar CDot :: AOne CSpace
                 :: (literal (chars st) ++ [AOne CSpace; AStar CDot; AEol]))).
  cbn [rmatch]. intros H. destruct (at_bol prev); [|discriminate].
  split; [reflexivity|].
  apply star_spec in H as (a & s1 & -> & Ha & H & _).
  apply rmatch_literal in H as (s2 & -> & H). cbn [rmatch] in H.
  apply star_spec in H as (b & s3 & -> & Hb & H & _).
  destruct s3 as [|w1 s3]; [discriminate|].
  destruct (cmatch CSpace w1) eqn:Hw1; [|discriminate].
  apply rmatch_literal in H as (s4 & -> & H).
  destruct o as [m c]. pose proof (rmatch_count _ _ _ _ _ _ _ H) as Hc.
  cbn [rmatch] in H.
  destruct s4 as [|w2 rest]; [discriminate|].
  destruct (cmatch CSpace w2) eqn:Hw2; [|discriminate].
  exists a, b, w1, w2, rest. repeat split; try assumption. simpl. lia.
Qed.

Lemma desired_pattern_complete (i st : string) (prev : option ascii)
    (a b rest : list ascii) (w1 w2 : ascii) :
  at_bol prev = true -> all_in CDot a -> all_in CDot b ->
  is_space w1 = true -> is_space w2 = true ->
  exists o,
    rmatch (desired_pattern i st) None prev
           (a ++ chars i ++ b ++ w1 :: chars st ++ w2 :: rest) 0 = Some o.
Proof.
  intros Hp Ha Hb Hw1 Hw2. unfold desired_pattern.
  change ([ABol; AStar CDot] ++ literal (chars i)
          ++ [AStar CDot; AOne CSpace] ++ literal (chars st)
          ++ [AOne CSpace; AStar CDot; AEol])
    with (ABol :: AStar CDot
          :: (literal (chars i)
              ++ AStar CDot :: AOne CSpace
                 :: (literal (chars st) ++ [AOne CSpace; AStar CDot; AEol]))).
  cbn [rmatch]. rewrite Hp.
  destruct (star_dot_eol None rest (Some w2)
              (S (S (0 + length a + length (chars i) + length b)
                  + length (chars st)))) as [m Hm].
  assert (Hin : exists o,
            star CDot
              (rmatch (AOne CSpace
                       :: (literal (chars st) ++ [AOne CSpace; AStar CDot; AEol]))
                      None)
              (last_char (last_char prev a) (chars i))
              (b ++ w1 :: chars st ++ w2 :: rest)
              (0 + length a + length (chars i)) = Some o).
  { eapply star_Some; [exact Hb|]. cbn [rmatch]. simpl cmatch. rewrite Hw1.
    rewrite rmatch_literal_eq. cbn [rmatch]. simpl cmatch. rewrite Hw2.
    exact Hm. }
  destruct Hin as [o Ho].
  eapply star_Some; [exact Ha|]. rewrite rmatch_literal_eq. exact Ho.
Qed.

End Patterns.

Lemma findall_nonempty_inv (r : PyRe.regex) (s : list ascii) :
  PyRe.findall r s <> [] ->
  exists a s' m c,
    s = a ++ s' /\ PyRe.rmatch r None (last_char None a) s' 0 = Some (m, c).
Proof.
  unfold PyRe.findall. intros H.
  pose proof (findall_from_suffix r s None 0) as HF.
  destruct (PyRe.findall_from r None s 0) as [|x l]; [congruence|].
  apply Forall_cons in HF as [(a & s' & m & c & Hs & Hm & _) _].
  exists a, s', m, c. auto.
Qed.

Lemma listed_findall_iff (job_id : string) (s : list ascii) :
  job_id <> "" ->
  PyRe.findall (listed_pattern job_id) s <> [] <-> occurs (chars job_id) s.
Proof.
  intros Hne. split.
  - intros H. apply findall_nonempty_inv in H as (a & s' & m & c & Hs & Hm).
    apply listed_pattern_sound in Hm as (a' & rest & -> & _).
    exists (a ++ a'), rest. rewrite Hs, <- app_assoc. reflexivity.
  - intros (x & y & Hs). rewrite Hs.
    destruct (line_start_split x) as (pre & a & -> & Hpre & Ha).
    destruct (listed_pattern_complete job_id (last_char None pre) a y Hpre Ha)
      as [[m c] Hm].
    pose proof (listed_pattern_sound _ _ _ _ _ Hm) as (_ & _ & _ & Hlen).
    pose proof (chars_nonempty job_id Hne) as Hi.
    destruct m as [|m]; [destruct (chars job_id); [congruence | simpl in Hlen; lia]|].
    rewrite <- app_assoc. unfold PyRe.findall.
    eapply findall_from_found. exact Hm.
Qed.

Lemma desired_findall_iff (job_id desired_status : string) (s : list ascii) :
  PyRe.findall (desired_pattern job_id desired_status) s <> [] <->
  followed_by (chars job_id) (chars desired_status) s.
Proof.
  split.
  - intros H. apply findall_nonempty_inv in H as (pre & s' & m & c & Hs & Hm).
    apply desired_pattern_sound in Hm
      as (Hb & a & b & w1 & w2 & rest & -> & Ha & Hbb & Hw1 & Hw2 & _).
    exists pre, a, b, w1, w2, rest. repeat split; assumption.
  - intros (pre & a & b & w1 & w2 & rest & Hs & Hpre & Ha & Hb & Hw1 & Hw2).
    rewrite Hs.
    destruct (desired_pattern_complete job_id desired_status
                (last_char None pre) a b rest w1 w2 Hpre Ha Hb Hw1 Hw2)
      as [[m c] Hm].
    pose proof (desired_pattern_sound _ _ _ _ _ Hm) as (_ & H).
    destruct H as (_ & _ & _ & _ & _ & _ & _ & _ & _ & _ & Hc). simpl in Hc.
    destruct m as [|m]; [lia|].
    unfold PyRe.findall. eapply findall_from_found. exact Hm.
Qed.

Section IdentifierFunctions.

Variable qstat_output : nat -> string.

(** X2. [check_job_absent] makes one query and answers by substring: the job
    counts as not absent exactly when its identifier occurs somewhere in the
    listing, be it inside a longer identifier or another column. *)
Theorem check_job_absent_by_substring (job_id : string) (w : world) :
  plain_id job_id = true -> job_id <> "" ->
  exists b,
    check_job_absent qstat_output job_id w
    = (Ok b, World (S (qstat_calls w)) (table w) (heap w) (jobs_list w)
                   (trace w ++ [EvQstat (qstat_calls w)])) /\
    (b = false <->
     occurs (chars job_id) (chars (qstat_output (qstat_calls w)))).
Proof.
  intros _ Hne. eexists. split; [reflexivity|].
  rewrite bool_decide_eq_false. apply listed_findall_iff, Hne.
Qed.

(** X3. [check_job_status] makes one query and answers true exactly when, on
    some line of the listing, the identifier is followed further on by the
    desired status between two whitespace characters. *)
Theorem check_job_status_by_line (job_id desired_status : string) (w : world) :
  plain_id job_id = true -> plain_id desired_status = true ->
  exists b,
    check_job_status qstat_output job_id desired_status w
    = (Ok b, World (S (qstat_calls w)) (table w) (heap w) (jobs_list w)
                   (trace w ++ [EvQstat (qstat_calls w)])) /\
    (b = true <->
     followed_by (chars job_id) (chars desired_status)
                 (chars (qstat_output (qstat_calls w)))).
Proof.
  intros _ _. eexists. split; [reflexivity|].
  rewrite negb_true_iff, bool_decide_eq_false. apply desired_findall_iff.
Qed.

(** X4. [get_job_status] on a listing that is not empty makes no query; it
    raises [AttributeError] when the identifier occurs nowhere in the listing
    (where [Job.get_status] answers [None]), and a status it returns is a run
    of letters between two whitespace characters, after the identifier. *)
Theorem get_job_status_or_raise (job_id snapshot : string) (w : world) :
  plain_id job_id = true -> snapshot <> "" ->
  exists r,
    get_job_status qstat_output job_id (Some snapshot) w = (r, w) /\
    (~ occurs (chars job_id) (chars snapshot) -> r = Raise AttributeError) /\
    (forall t, r = Ok t ->
       exists tok pre mid b,
         t = Some (text tok) /\
         chars snapshot = pre ++ chars job_id ++ mid ++ b /\
         token_at b tok).
Proof.
  intros _ Hs.
  assert (Hq : not_str (Some snapshot) = false)
    by (apply bool_decide_eq_false_2; exact Hs).
  unfold get_job_status, mbind, M_bind, bind. rewrite Hq. simpl.
  unfold PyRe.search.
  destruct (PyRe.search_from (old_status_pattern job_id) None (chars snapshot))
    as [[m g]|] eqn:E.
  - apply search_from_sound in E as (sk & s' & Hsk & E).
    unfold old_status_pattern in E.
    change ([PyRe.ABol; PyRe.AStar PyRe.CDot] ++ PyRe.literal (chars job_id)
            ++ [PyRe.AStar PyRe.CDot; PyRe.AOne PyRe.CSpace;
                PyRe.AGroupPlus PyRe.CAlpha; PyRe.AOne PyRe.CSpace;
                PyRe.AStar PyRe.CDot; PyRe.AEol])
      with (PyRe.ABol :: PyRe.AStar PyRe.CDot
            :: (PyRe.literal (chars job_id)
                ++ PyRe.AStar PyRe.CDot :: status_tail)) in E.
    cbn [PyRe.rmatch] in E.
    destruct (PyRe.at_bol (last_char None sk)); [|discriminate].
    apply star_spec in E as (a & s1 & -> & _ & E & _).
    apply rmatch_literal in E as (s2 & -> & E). cbn [PyRe.rmatch] in E.
    apply star_spec in E as (mid & b & -> & _ & E & _).
    apply status_tail_sound in E as (tok & Htok & Hg). simpl in Hg. subst g.
    eexists. split; [reflexivity|]. split.
    + intros Hno. exfalso. apply Hno.
      exists (sk ++ a), (mid ++ b). rewrite Hsk, <- app_assoc. reflexivity.
    + intros t [= <-]. exists tok, (sk ++ a), mid, b. repeat split.
      * rewrite Hsk, <- app_assoc. reflexivity.
      * exact Htok.
  - eexists. split; [reflexivity|]. split; [reflexivity | discriminate].
Qed.

End IdentifierFunctions.

(** ** A refresh, exactly *)




Section RefreshExact.

Variable qstat_output : nat -> string.

Ltac run_step tac :=
  erewrite bind_run by tac;
  cbn [qstat_calls table heap jobs_list trace id qstat_stdout entry status
       state set_qstat_stdout set_entry set_status set_state set_is_running
       set_is_error set_is_present getattr].

Ltac run_setattr := run_step ltac:(apply setattr_run; apply lookup_insert_eq).
Ltac run_read := run_step ltac:(apply read_run; apply lookup_insert_eq).







End RefreshExact.

(** ** What a run of the monitor keeps *)

Section FrameAll.

Variable qstat_output : nat -> string.
Variable R : relation world.
Hypothesis R_refl : forall w, R w w.
Hypothesis R_trans : forall a b c, R a b -> R b c -> R a c.
Hypothesis R_emit : forall e, keeps R (emit e).
Hypothesis R_qstat : keeps R (qstat qstat_output).
Hypothesis R_write :
  forall h j j', id j' = id j -> forall w, heap w !! h = Some j ->
    R w (snd (write h j' w)).
Hypothesis R_table : forall s, keeps R (get_state_shared s).
Hypothesis R_remove : forall x, keeps R (list_remove x).
Hypothesis R_pop : forall i, keeps R (list_pop i).

Lemma keeps_kill_err_jobs (err_jobs : list handle) (kill_err : bool) :
  keeps R (kill_err_jobs err_jobs kill_err).
Proof.
  unfold kill_err_jobs.
  repeat first
    [ apply keeps_bind; [exact R_trans | | intros ?]
    | apply keeps_job_ids; assumption
    | apply keeps_ret; exact R_refl
    | apply R_emit
    | match goal with
      | |- keeps _ (if ?b then _ else _) => destruct b
      end ].
Qed.

Lemma keeps_monitor_jobs (fuel : nat) (jobs : pyvalue) (kill_err : bool) :
  keeps R (monitor_jobs qstat_output fuel jobs kill_err).
Proof.
  unfold monitor_jobs, py_not, py_len.
  repeat first
    [ apply keeps_kill_err_jobs
    | apply keeps_monitor_loop; solve [auto]
    | apply keeps_bind; [exact R_trans | | intros ?]
    | apply keeps_ret; exact R_refl
    | apply keeps_raise; exact R_refl
    | apply keeps_get_jobs; exact R_refl
    | apply R_emit
    | match goal with
      | |- keeps _ (if ?b then _ else _) => destruct b
      | |- keeps _ (match ?x with _ => _ end) => destruct x
      end ].
Qed.

End FrameAll.

Lemma remove_first_sublist (x : handle) (l l' : list handle) :
  remove_first x l = Some l' -> sublist l' l.
Proof.
  revert l'. induction l as [|y l IH]; intros l'; simpl; [discriminate|].
  case_bool_decide.
  - intros [= <-]. apply sublist_cons. reflexivity.
  - destruct (remove_first x l) as [r|]; simpl; [|discriminate].
    intros [= <-]. apply sublist_skip. apply IH. reflexivity.
Qed.

Lemma list_remove_Ok (x : handle) (w w' : world) :
  list_remove x w = (Ok tt, w') ->
  exists l', remove_first x (jobs_list w) = Some l' /\
    w' = World (qstat_calls w) (table w) (heap w) l' (trace w).
Proof.
  unfold list_remove, mbind, M_bind, bind, get_jobs.
  destruct (remove_first x (jobs_list w)) as [l'|]; [|discriminate].
  intros [= <-]. eauto.
Qed.

Lemma list_pop_Ok (i : nat) (x : handle) (w w' : world) :
  list_pop i w = (Ok x, w') ->
  jobs_list w !! i = Some x /\
  w' = World (qstat_calls w) (table w) (heap w) (delete i (jobs_list w))
             (trace w).
Proof.
  unfold list_pop, mbind, M_bind, bind, get_jobs.
  destruct (jobs_list w !! i) as [y|]; [|discriminate].
  intros [= <- <-]. auto.
Qed.

Section MonitorKeeps.

Variable qstat_output : nat -> string.

(** X8. Whatever the listings and however the call ends, [monitor_jobs]
    only takes handles out of the caller's list: what is left is a sublist of
    what was passed, in the same order. *)
Theorem monitor_jobs_only_removes (fuel : nat) (jobs : pyvalue)
    (kill_err : bool) (w : world) :
  sublist (jobs_list (monitor_jobs qstat_output fuel jobs kill_err w).2)
          (jobs_list w).
Proof.
  apply (keeps_monitor_jobs qstat_output sub_jobs); unfold keeps, sub_jobs.
  - reflexivity.
  - intros a b c H1 H2. etransitivity; eassumption.
  - reflexivity.
  - reflexivity.
  - reflexivity.
  - intros s w0. unfold get_state_shared.
    destruct (get_state s (table w0)). reflexivity.
  - intros x w0. unfold list_remove, mbind, M_bind, bind, get_jobs.
    destruct (remove_first x (jobs_list w0)) as [l'|] eqn:E; simpl;
      [|reflexivity].
    eapply remove_first_sublist. exact E.
  - intros i w0. unfold list_pop, mbind, M_bind, bind, get_jobs.
    destruct (jobs_list w0 !! i) as [x|] eqn:E; simpl; [|reflexivity].
    apply sublist_delete.
Qed.

(** X9. Whatever the listings and however the call ends, [monitor_jobs]
    creates and deletes no [Job] object and changes no identifier. *)
Theorem monitor_jobs_keeps_ids (fuel : nat) (jobs : pyvalue)
    (kill_err : bool) (w : world) (h : handle) :
  id <$> heap (monitor_jobs qstat_output fuel jobs kill_err w).2 !! h
  = id <$> heap w !! h.
Proof.
  revert h.
  apply (keeps_monitor_jobs qstat_output same_ids); unfold keeps, same_ids.
  - reflexivity.
  - intros a b c H1 H2 h. rewrite H2. apply H1.
  - reflexivity.
  - reflexivity.
  - intros h j j' Hid w0 Hh h'. simpl.
    destruct (decide (h = h')) as [<-|Hne].
    + rewrite lookup_insert_eq, Hh. simpl. rewrite Hid. reflexivity.
    + rewrite lookup_insert_ne by exact Hne. reflexivity.
  - intros s w0 h'. unfold get_state_shared.
    destruct (get_state s (table w0)). reflexivity.
  - intros x w0 h'. unfold list_remove, mbind, M_bind, bind, get_jobs.
    destruct (remove_first x (jobs_list w0)); reflexivity.
  - intros i w0 h'. unfold list_pop, mbind, M_bind, bind, get_jobs.
    destruct (jobs_list w0 !! i); reflexivity.
Qed.

(** X10. Whatever the listings and however the call ends, after
    [monitor_jobs] the shared table classifies every token as it did before:
    the lookups of the run only add entries with the default value. *)
Theorem monitor_jobs_keeps_classification (fuel : nat) (jobs : pyvalue)
    (kill_err : bool) (w : world) (token : option string) :
  (get_state token
     (table (monitor_jobs qstat_output fuel jobs kill_err w).2)).1
  = (get_state token (table w)).1.
Proof.
  rewrite !get_state_fst. generalize (py_str token). clear token.
  apply (keeps_monitor_jobs qstat_output same_answers);
    unfold keeps, same_answers.
  - reflexivity.
  - intros a b c H1 H2 k. rewrite H2. apply H1.
  - reflexivity.
  - reflexivity.
  - reflexivity.
  - intros s w0 k. rewrite get_state_shared_run. simpl.
    apply answer_get_state.
  - intros x w0 k. unfold list_remove, mbind, M_bind, bind, get_jobs.
    destruct (remove_first x (jobs_list w0)); reflexivity.
  - intros i w0 k. unfold list_pop, mbind, M_bind, bind, get_jobs.
    destruct (jobs_list w0 !! i); reflexivity.
Qed.

End MonitorKeeps.

(** ** Where the handles go *)

Section Conservation.

Variable qstat_output : nat -> string.

Lemma present_Ok_jobs (h : handle) (w w' : world) (b : bool) :
  present qstat_output h w = (Ok b, w') -> jobs_list w' = jobs_list w.
Proof.
  intros H. pose proof (same_jobs_present qstat_output h w) as E.
  rewrite H in E. exact E.
Qed.

Lemma error_Ok_jobs (h : handle) (w w' : world) (b : bool) :
  error qstat_output h w = (Ok b, w') -> jobs_list w' = jobs_list w.
Proof.
  intros H. pose proof (same_jobs_error qstat_output h w) as E.
  rewrite H in E. exact E.
Qed.

(** Each iteration drops a handle or moves one to [err_jobs], or neither. *)
Lemma for_jobs_conserves (n : nat) :
  forall i err_jobs w err_jobs' w',
    for_jobs qstat_output n i err_jobs w = (Ok err_jobs', w') ->
    err_jobs' ++ jobs_list w' ⊆+ err_jobs ++ jobs_list w.
Proof.
  induction n as [|n IH]; intros i errs w errs' w' H; cbn [for_jobs] in H;
    apply bind_Ok in H as (l & w0 & H0 & H); injection H0 as <- <-;
    destruct (jobs_list w !! i) as [job|] eqn:Ei;
    try (injection H as <- <-; reflexivity); try discriminate.
  apply bind_Ok in H as (p & w1 & H1 & H).
  apply present_Ok_jobs in H1.
  apply bind_Ok in H as ([] & w2 & H2 & H).
  assert (L2 : jobs_list w2 ⊆+ jobs_list w).
  { rewrite <- H1. destruct (negb p).
    - apply list_remove_Ok in H2 as (l' & Hr & ->). simpl.
      apply sublist_submseteq. eapply remove_first_sublist. exact Hr.
    - injection H2 as <-. reflexivity. }
  apply bind_Ok in H as (e & w3 & H3 & H).
  apply error_Ok_jobs in H3.
  apply bind_Ok in H as (errs2 & w4 & H4 & H).
  apply IH in H. etransitivity; [exact H|].
  destruct e.
  - apply bind_Ok in H4 as (x & w5 & H5 & H4). injection H4 as <- <-.
    apply list_pop_Ok in H5 as (Hx & ->). simpl.
    rewrite <- app_assoc. apply submseteq_skips_l. simpl.
    rewrite <- (delete_Permutation _ _ _ Hx), H3. exact L2.
  - injection H4 as <- <-. apply submseteq_skips_l. rewrite H3. exact L2.
Qed.

Lemma while_jobs_conserves (fuel : nat) :
  forall num_jobs err_jobs w err_jobs' w',
    while_jobs qstat_output fuel num_jobs err_jobs w = (Ok err_jobs', w') ->
    err_jobs' ++ jobs_list w' ⊆+ err_jobs ++ jobs_list w.
Proof.
  induction fuel as [|fuel IH]; intros n errs w errs' w' H; simpl in H;
    destruct (0 <? n); try discriminate;
    try (injection H as <- <-; reflexivity).
  apply bind_Ok in H as (l & w0 & H0 & H). injection H0 as <- <-.
  apply bind_Ok in H as (n' & w1 & H1 & H).
  assert (J1 : jobs_list w1 = jobs_list w).
  { destruct (negb (n =? length (jobs_list w))); simpl in H1;
      injection H1 as _ <-; reflexivity. }
  apply bind_Ok in H as (errs2 & w2 & H2 & H).
  unfold poll_cycle in H2.
  apply bind_Ok in H2 as (l & w0 & H0 & H2). injection H0 as <- <-.
  apply for_jobs_conserves in H2.
  apply bind_Ok in H as ([] & w3 & H3 & H). injection H3 as <-.
  apply IH in H. simpl in H. etransitivity; [exact H|].
  rewrite <- J1. exact H2.
Qed.

(** X11. When the loop of [monitor_jobs] ends, the handles of the stuck
    collection all come from the caller's list, each at most as often as it
    was in it: a handle listed once is moved, and cancelled, at most once. *)
Theorem stuck_jobs_from_cohort (fuel : nat) (w w' : world)
    (err_jobs : list handle) :
  monitor_loop qstat_output fuel w = (Ok err_jobs, w') ->
  err_jobs ⊆+ jobs_list w /\ (NoDup (jobs_list w) -> NoDup err_jobs).
Proof.
  intros H. unfold monitor_loop in H.
  apply bind_Ok in H as (l & w0 & H0 & H). injection H0 as <- <-.
  apply bind_Ok in H as ([] & w1 & H1 & H). injection H1 as <-.
  apply bind_Ok in H as (errs & w2 & H2 & H).
  apply bind_Ok in H as ([] & w3 & H3 & H). injection H as <- _.
  apply while_jobs_conserves in H2. simpl in H2.
  assert (Hsub : errs ⊆+ jobs_list w).
  { etransitivity; [|exact H2]. apply submseteq_inserts_r. reflexivity. }
  split; [exact Hsub|]. intros Hnd.
  apply submseteq_Permutation in Hsub as [k Hk].
  rewrite Hk in Hnd. apply NoDup_app in Hnd as [Hnd _]. exact Hnd.
Qed.

End Conservation.

(** ** The entries of a job *)

Section JobPattern.

Import PyRe.

Lemma job_pattern_inv (i : string) (prev : option ascii) (s : list ascii)
    (o : outcome) :
  rmatch (job_pattern i) None prev s 0 = Some o ->
  at_bol prev = true /\
  exists ws w rest,
    s = ws ++ chars i ++ w :: rest /\
    all_in CSpace ws /\ is_space w = true /\ 1 <= o.1.
Proof.
  unfold job_pattern.
  change ([ABol; AStar CSpace] ++ literal (chars i)
          ++ [AOne CSpace; AStar CDot; AEol])
    with (ABol :: AStar CSpace
          :: (literal (chars i) ++ [AOne CSpace; AStar CDot; AEol])).
  cbn [rmatch]. intros H. destruct (at_bol prev); [|discriminate].
  split; [reflexivity|].
  apply star_spec in H as (ws & s1 & -> & Hws & H & _).
  apply rmatch_literal in H as (s2 & -> & H).
  apply rmatch_one_inv in H as (w & rest & -> & Hw & H).
  destruct o as [m c]. apply rmatch_count in H.
  exists ws, w, rest. repeat split; try assumption. simpl. lia.
Qed.

Lemma job_pattern_complete (i : string) (prev : option ascii)
    (ws rest : list ascii) (w : ascii) :
  at_bol prev = true -> all_in CSpace ws -> is_space w = true ->
  exists o,
    rmatch (job_pattern i) None prev (ws ++ chars i ++ w :: rest) 0 = Some o.
Proof.
  intros Hp Hws Hw. unfold job_pattern.
  change ([ABol; AStar CSpace] ++ literal (chars i)
          ++ [AOne CSpace; AStar CDot; AEol])
    with (ABol :: AStar CSpace
          :: (literal (chars i) ++ [AOne CSpace; AStar CDot; AEol])).
  cbn [rmatch]. rewrite Hp.
  destruct (star_dot_eol None rest (Some w)
              (S (0 + length ws + length (chars i)))) as [m Hm].
  eapply star_Some; [exact Hws|]. rewrite rmatch_literal_eq.
  cbn [rmatch]. simpl cmatch. rewrite Hw. exact Hm.
Qed.

End JobPattern.

(** X12. [get_job] finds an entry for an identifier exactly when some line of
    the listing starts, after whitespace or at once, with the identifier
    followed by a whitespace character. *)
Theorem find_entries_iff_listed (i snapshot : string) :
  plain_id i = true ->
  find_entries i snapshot <> [] <-> listed_first (chars i) (chars snapshot).
Proof.
  intros _. unfold find_entries. split.
  - intros H.
    assert (H' : PyRe.findall (job_pattern i) (chars snapshot) <> []).
    { intros E. apply H. rewrite E. reflexivity. }
    apply findall_nonempty_inv in H' as (pre & s' & m & c & Hs & Hm).
    apply job_pattern_inv in Hm as (Hb & ws & w & rest & -> & Hws & Hw & _).
    exists pre, ws, w, rest. repeat split; assumption.
  - intros (pre & ws & w & rest & Hs & Hpre & Hws & Hw) E.
    apply fmap_nil_inv in E. revert E. rewrite Hs.
    destruct (job_pattern_complete i (last_char None pre) ws rest w
                Hpre Hws Hw) as [[m c] Hm].
    pose proof (job_pattern_inv _ _ _ _ Hm) as (_ & _ & _ & _ & _ & _ & _ & Hc).
    simpl in Hc. destruct m as [|m]; [lia|].
    unfold PyRe.findall. eapply findall_from_found. exact Hm.
Qed.

(** ** More on the answer of [qsub] *)

Lemma split_from_blank (s : list ascii) :
  all_in PyRe.CSpace s -> split_from [] s = [].
Proof.
  induction 1 as [|c s Hc Hs IH]; [reflexivity|].
  simpl in *. rewrite Hc. exact IH.
Qed.

(** X13. When [qsub] printed nothing, or whitespace only, [get_job_ID_name]
    raises [IndexError]. *)
Theorem get_job_ID_name_blank (proc_stdout : string) :
  all_in PyRe.CSpace (chars proc_stdout) ->
  get_job_ID_name proc_stdout = Raise IndexError.
Proof.
  intros H. unfold get_job_ID_name, py_split.
  rewrite split_from_blank by exact H. reflexivity.
Qed.

(** The fields of [split] are not empty and hold no whitespace. *)
Lemma split_from_fields (s : list ascii) :
  forall cur,
    Forall (fun c => PyRe.is_space c = false) cur ->
    Forall (fun f => f <> [] /\ Forall (fun c => PyRe.is_space c = false) f)
           (split_from cur s).
Proof.
  induction s as [|c s IH]; intros cur Hcur; simpl.
  - destruct cur; constructor; [|constructor]. split; [discriminate | exact Hcur].
  - destruct (PyRe.is_space c) eqn:Hc.
    + destruct cur as [|d cur]; [apply IH; constructor|].
      constructor; [split; [discriminate | exact Hcur]|]. apply IH. constructor.
    + apply IH. apply Forall_app. split; [exact Hcur|]. repeat constructor.
      exact Hc.
Qed.

Lemma sub_open_sublist (s : list ascii) : sublist (sub_open s) s.
Proof.
  unfold sub_open. destruct s as [|a [|q s]]; try reflexivity.
  destruct (_ && _); [|reflexivity].
  apply sublist_cons, sublist_cons. reflexivity.
Qed.

Lemma sub_close_sublist (s : list ascii) : sublist (sub_close s) s.
Proof.
  unfold sub_close.
  destruct (reverse s) as [|a [|b r]] eqn:E; try reflexivity.
  assert (Hs : s = reverse r ++ [b; a]).
  { rewrite <- (reverse_involutive s), E.
    rewrite !reverse_cons, <- app_assoc. reflexivity. }
  destruct (_ && _).
  - rewrite Hs. apply sublist_inserts_r. reflexivity.
  - destruct r as [|c r]; [reflexivity|].
    destruct (_ && _); [|reflexivity].
    rewrite Hs. rewrite reverse_cons, <- !app_assoc. simpl.
    apply sublist_app; [reflexivity|].
    apply sublist_cons, sublist_cons. reflexivity.
Qed.

(** X14. An identifier that [get_job_ID_name] returns is not empty and holds
    no whitespace, and a name it returns holds no whitespace. *)
Theorem get_job_ID_name_fields (proc_stdout job_id job_name : string) :
  get_job_ID_name proc_stdout = Ok (job_id, job_name) ->
  job_id <> "" /\ no_space job_id /\ no_space job_name.
Proof.
  unfold get_job_ID_name, py_split. intros H.
  pose proof (split_from_fields (chars proc_stdout) [] (Forall_nil_2 _)) as HF.
  destruct (split_from [] (chars proc_stdout) !! 2) as [f2|] eqn:E2;
    [|discriminate].
  destruct (split_from [] (chars proc_stdout) !! 3) as [f3|] eqn:E3;
    [|discriminate].
  injection H as <- <-.
  pose proof (Forall_lookup_1 _ _ _ _ HF E2) as [Hne2 Hsp2].
  pose proof (Forall_lookup_1 _ _ _ _ HF E3) as [_ Hsp3].
  unfold no_space. rewrite !chars_text. repeat split.
  - intros E. apply Hne2. rewrite <- (chars_text f2), E. reflexivity.
  - exact Hsp2.
  - apply Forall_forall. intros c Hc.
    rewrite Forall_forall in Hsp3. apply Hsp3.
    eapply elem_of_sublist; [exact Hc|].
    etransitivity; [apply sub_close_sublist | apply sub_open_sublist].
Qed.

(** ** One refresh, one handle *)

Section RefreshFrame.

Variable qstat_output : nat -> string.


End RefreshFrame.

(** ** The monitor on a queue the cohort has left *)



Section Gone.

Variable qstat_output : nat -> string.
Hypothesis listing_not_empty : forall k, qstat_output k <> "".

Ltac run_step tac :=
  erewrite bind_run by tac;
  cbn [qstat_calls table heap jobs_list trace id qstat_stdout entry status
       state is_running is_error is_present refreshed getattr].





End Gone.

(** ** Waiting on identifiers *)

Lemma asked_0 (w : world) : asked 0 w = w.
Proof.
  destruct w as [c d hp l t]. unfold asked. cbn.
  rewrite Nat.add_0_r, app_nil_r. reflexivity.
Qed.

Lemma asked_S (n : nat) (w : world) : asked n (asked 1 w) = asked (S n) w.
Proof.
  unfold asked. cbn [qstat_calls table heap jobs_list trace].
  rewrite <- app_assoc, <- fmap_app, Nat.add_1_r.
  replace (S (qstat_calls w) + n) with (qstat_calls w + S n) by lia.
  reflexivity.
Qed.

Lemma py_all_imap {A : Type} (l : list A) :
  forall f : nat -> A -> bool,
    py_all (imap f l) = true <->
    forall n x, l !! n = Some x -> f n x = true.
Proof.
  induction l as [|y l IH]; intros f; simpl.
  - split; [intros _ n x Hn; discriminate | reflexivity].
  - rewrite andb_true_iff. unfold py_all in IH. rewrite IH. split.
    + intros [H0 H] [|n] x Hn; simpl in Hn; [congruence | eapply H, Hn].
    + intros H. split; [apply (H 0); reflexivity|].
      intros n x Hn. apply (H (S n)). exact Hn.
Qed.

(** A comprehension over a function that makes one query per element and
    answers from the listing it gets: element [n] meets listing [k + n]. *)
Lemma comprehension_round {B : Type} (f : string -> M B)
    (g : string -> nat -> B) (l : list string) :
  (forall i w, f i w = (Ok (g i (qstat_calls w)), asked 1 w)) ->
  forall w,
    comprehension f l w
    = (Ok (imap (fun n i => g i (qstat_calls w + n)) l), asked (length l) w).
Proof.
  intros Hf. induction l as [|i l IH]; intros w.
  - simpl. rewrite asked_0. reflexivity.
  - cbn [comprehension]. rewrite (bind_run _ _ _ _ _ (Hf i w)).
    rewrite (bind_run _ _ _ _ _ (IH (asked 1 w))).
    cbn [imap length]. rewrite asked_S, Nat.add_0_r. unfold mret, M_ret, ret.
    do 3 f_equal. apply imap_ext. intros n x _. cbn [qstat_calls asked compose].
    f_equal. lia.
Qed.

Section WaitingProperties.

Variable qstat_output : nat -> string.
Variable render : wait_message -> log_message.
Variable stdout_write : string -> event.
Variable clock : world -> Z.

Lemma check_job_absent_run (i : string) (w : world) :
  check_job_absent qstat_output i w
  = (Ok (absent_at qstat_output i (qstat_calls w)), asked 1 w).
Proof.
  unfold check_job_absent, absent_at, asked, mbind, M_bind, bind, qstat. cbn.
  rewrite Nat.add_1_r. reflexivity.
Qed.

Lemma check_job_running_run (i : string) (w : world) :
  check_job_status qstat_output i "r" w
  = (Ok (running_at qstat_output i (qstat_calls w)), asked 1 w).
Proof.
  unfold check_job_status, running_at, asked, mbind, M_bind, bind, qstat. cbn.
  rewrite Nat.add_1_r. reflexivity.
Qed.

Lemma absent_round (l : list string) (w : world) :
  comprehension (check_job_absent qstat_output) l w
  = (Ok (imap (fun n i => absent_at qstat_output i (qstat_calls w + n)) l),
     asked (length l) w).
Proof. apply comprehension_round. apply check_job_absent_run. Qed.

Lemma running_round (l : list string) (w : world) :
  comprehension (fun i => check_job_status qstat_output i "r") l w
  = (Ok (imap (fun n i => running_at qstat_output i (qstat_calls w + n)) l),
     asked (length l) w).
Proof.
  apply (comprehension_round
           (fun i => check_job_status qstat_output i "r")
           (running_at qstat_output)).
  apply check_job_running_run.
Qed.

Lemma all_absent_iff (l : list string) (k : nat) :
  plain_ids l ->
  py_all (imap (fun n i => absent_at qstat_output i (k + n)) l) = true
  <-> round_absent qstat_output k l.
Proof.
  intros Hp. rewrite py_all_imap. unfold round_absent.
  split; intros H n i Hn; specialize (H n i Hn);
    pose proof (Forall_lookup_1 _ _ _ _ Hp Hn) as [_ Hne];
    pose proof (listed_findall_iff i (chars (qstat_output (k + n))) Hne) as Hiff;
    unfold absent_at in *.
  - apply bool_decide_eq_true in H. rewrite <- Hiff. intros Hc. exact (Hc H).
  - apply bool_decide_eq_true_2.
    destruct (PyRe.findall (listed_pattern i) (chars (qstat_output (k + n))))
      eqn:E; [reflexivity|].
    exfalso. apply H, Hiff. discriminate.
Qed.

Lemma all_running_iff (l : list string) (k : nat) :
  py_all (imap (fun n i => running_at qstat_output i (k + n)) l) = true
  <-> round_running qstat_output k l.
Proof.
  rewrite py_all_imap. unfold round_running.
  split; intros H n i Hn; specialize (H n i Hn);
    pose proof (desired_findall_iff i "r" (chars (qstat_output (k + n))))
      as Hiff; unfold running_at in *.
  - apply negb_true_iff, bool_decide_eq_false in H. apply Hiff, H.
  - apply negb_true_iff, bool_decide_eq_false_2, Hiff, H.
Qed.

Lemma wait_all_jobs_start_loop_eq (fuel : nat) (l : list string) (b : bool)
    (t0 : Z) (e : option Z) :
  wait_all_jobs_start_loop qstat_output render stdout_write clock fuel l b t0 e
  = (running ← comprehension (fun i => check_job_status qstat_output i "r") l ;
     if negb (py_all running) then
       match fuel with
       | 0 => diverge
       | S fuel' =>
           emit (stdout_write ".") ;;
           t ← now clock ;
           absent ← comprehension (check_job_absent qstat_output) l ;
           if py_all absent then
             logger_debug render (AllAbsent (t - t0)%Z) ;; ret (inl b)
           else
             emit (EvSleep 2) ;;
             wait_all_jobs_start_loop qstat_output render stdout_write clock
               fuel' l b t0 (Some (t - t0)%Z)
       end
     else ret (inr e)).
Proof. destruct fuel; reflexivity. Qed.

Lemma wait_all_jobs_finished_loop_eq (fuel : nat) (l : list string) :
  wait_all_jobs_finished_loop qstat_output stdout_write fuel l
  = (absent ← comprehension (check_job_absent qstat_output) l ;
     if negb (py_all absent) then
       match fuel with
       | 0 => diverge
       | S fuel' =>
           emit (stdout_write ".") ;;
           emit (EvSleep 3) ;;
           wait_all_jobs_finished_loop qstat_output stdout_write fuel' l
       end
     else ret tt).
Proof. destruct fuel; reflexivity. Qed.

(** X17. When every job of the list already shows state [r] at the first
    round of queries (each identifier on its own listing; so also for the
    empty list), [wait_all_jobs_start] does not return: no assignment has
    reached [elapsed_time] and the read after the loop ends the call with
    [UnboundLocalError], one query per job having been made. *)
Theorem wait_all_jobs_start_unbound (fuel : nat) (job_id_list : list string)
    (w : world) :
  plain_ids job_id_list ->
  round_running qstat_output (qstat_calls w) job_id_list ->
  exists w',
    wait_all_jobs_start qstat_output render stdout_write clock fuel
                        job_id_list w
    = (Ok UnboundLocalError, w') /\
    qstat_calls w' = qstat_calls w + length job_id_list.
Proof.
  intros _ Hr. unfold wait_all_jobs_start.
  erewrite bind_run by reflexivity.
  erewrite bind_run by reflexivity.
  erewrite bind_run.
  2:{ rewrite wait_all_jobs_start_loop_eq.
      erewrite bind_run by apply running_round.
      cbn [qstat_calls].
      rewrite (proj2 (all_running_iff job_id_list (qstat_calls w)) Hr).
      reflexivity. }
  eexists. split; reflexivity.
Qed.

(** X18. When [wait_all_jobs_finished] returns [True], none of the
    identifiers occurred in its listing of the last round of queries: the
    [n]-th identifier is looked for in the [n]-th of the last listings, each
    job on a listing of its own. *)
Theorem wait_all_jobs_finished_true (fuel : nat) (job_id_list : list string)
    (w w' : world) :
  plain_ids job_id_list ->
  wait_all_jobs_finished qstat_output render stdout_write clock fuel
                         job_id_list w = (Ok true, w') ->
  length job_id_list <= qstat_calls w' /\
  round_absent qstat_output (qstat_calls w' - length job_id_list) job_id_list.
Proof.
  intros Hp H. unfold wait_all_jobs_finished in H.
  apply bind_Ok in H as (t0 & w0 & _ & H).
  apply bind_Ok in H as (u1 & w1 & _ & H).
  apply bind_Ok in H as (u2 & w2 & _ & H).
  apply bind_Ok in H as (t1 & w3 & H3 & H).
  apply bind_Ok in H as (u4 & w4 & H4 & H).
  apply bind_Ok in H as (bs & w5 & H5 & H).
  rewrite absent_round in H5. injection H5 as <- <-.
  injection H as Hb <-.
  injection H3 as _ <-. injection H4 as _ <-.
  cbn [asked qstat_calls].
  split; [lia|].
  replace (qstat_calls w2 + length job_id_list - length job_id_list)
    with (qstat_calls w2) by lia.
  apply all_absent_iff; [exact Hp|].
  cbn [qstat_calls] in Hb.
  destruct (py_all _); [reflexivity | discriminate].
Qed.

(** X19. When no identifier occurs in its listing in the next two rounds of
    queries, [wait_all_jobs_finished] returns [True] whatever the fuel: it
    makes two queries per job, one round for the loop and one for the test
    that follows it, and none for an empty list. *)
Theorem wait_all_jobs_finished_quiet (fuel : nat) (job_id_list : list string)
    (w : world) :
  plain_ids job_id_list ->
  round_absent qstat_output (qstat_calls w) job_id_list ->
  round_absent qstat_output (qstat_calls w + length job_id_list) job_id_list ->
  exists w',
    wait_all_jobs_finished qstat_output render stdout_write clock fuel
                           job_id_list w = (Ok true, w') /\
    qstat_calls w' = qstat_calls w + 2 * length job_id_list /\
    Forall (fun e => forall n, e <> EvSleep n) (drop (length (trace w)) (trace w')).
Proof.
  intros Hp H1 H2. unfold wait_all_jobs_finished.
  erewrite bind_run by reflexivity.
  erewrite bind_run by reflexivity.
  erewrite bind_run.
  2:{ rewrite wait_all_jobs_finished_loop_eq.
      erewrite bind_run by apply absent_round.
      cbn [qstat_calls].
      rewrite (proj2 (all_absent_iff job_id_list (qstat_calls w) Hp) H1).
      reflexivity. }
  erewrite bind_run by reflexivity.
  erewrite bind_run by reflexivity.
  erewrite bind_run by apply absent_round.
  cbn [qstat_calls asked].
  rewrite (proj2 (all_absent_iff job_id_list _ Hp) H2).
  eexists. split; [reflexivity|].
  unfold asked. cbn [qstat_calls trace]. split; [lia|].
  rewrite <- !app_assoc, drop_app_length.
  repeat (apply Forall_app; split); try (apply Forall_cons; split; [|apply Forall_nil_2]);
    try (intros n; discriminate);
    apply Forall_fmap, Forall_forall; intros k _ n; discriminate.
Qed.

Lemma wait_job_start_loop_eq (fuel : nat) (i : string) :
  wait_job_start_loop qstat_output stdout_write fuel i
  = (running ← check_job_status qstat_output i "r" ;
     if negb running then
       match fuel with
       | 0 => diverge
       | S fuel' =>
           emit (stdout_write ".") ;;
           emit (EvSleep 3) ;;
           wait_job_start_loop qstat_output stdout_write fuel' i
       end
     else ret tt).
Proof. destruct fuel; reflexivity. Qed.

Lemma wait_job_start_loop_asks (fuel : nat) (i : string) :
  forall w w' u,
    wait_job_start_loop qstat_output stdout_write fuel i w = (Ok u, w') ->
    qstat_calls w < qstat_calls w'.
Proof.
  induction fuel as [|fuel IH]; intros w w' u H;
    rewrite wait_job_start_loop_eq in H;
    rewrite (bind_run _ _ _ _ _ (check_job_running_run i w)) in H;
    destruct (running_at qstat_output i (qstat_calls w)); cbn [negb] in H;
    try discriminate;
    try (injection H as _ <-; cbn [asked qstat_calls]; lia).
  apply IH in H. cbn [asked qstat_calls] in H. lia.
Qed.

Lemma wait_job_start_loop_ends (n : nat) (i : string) :
  forall fuel w,
    n <= fuel ->
    (forall k, qstat_calls w <= k < qstat_calls w + n ->
       ~ followed_by (chars i) (chars "r") (chars (qstat_output k))) ->
    followed_by (chars i) (chars "r") (chars (qstat_output (qstat_calls w + n))) ->
    exists w',
      wait_job_start_loop qstat_output stdout_write fuel i w = (Ok tt, w') /\
      qstat_calls w' = qstat_calls w + S n.
Proof.
  induction n as [|n IH]; intros fuel w Hn Hk Hr;
    rewrite wait_job_start_loop_eq;
    rewrite (bind_run _ _ _ _ _ (check_job_running_run i w));
    destruct (running_at qstat_output i (qstat_calls w)) eqn:E; cbn [negb].
  - eexists; split; [reflexivity | cbn [asked qstat_calls]; lia].
  - exfalso. unfold running_at in E.
    apply negb_false_iff, bool_decide_eq_true in E.
    rewrite Nat.add_0_r in Hr.
    apply (proj2 (desired_findall_iff i "r" _) Hr), E.
  - exfalso. apply (Hk (qstat_calls w)); [lia|].
    unfold running_at in E. apply negb_true_iff, bool_decide_eq_false in E.
    apply desired_findall_iff, E.
  - destruct fuel as [|fuel]; [lia|].
    erewrite bind_run by reflexivity. erewrite bind_run by reflexivity.
    destruct (IH fuel
                (World (qstat_calls (asked 1 w)) (table (asked 1 w))
                   (heap (asked 1 w)) (jobs_list (asked 1 w))
                   ((trace (asked 1 w) ++ [stdout_write "."]) ++ [EvSleep 3])))
      as (w' & Hw' & Hc); [lia | | |].
    + intros k Hle. apply Hk. cbn [asked qstat_calls] in Hle. lia.
    + cbn [asked qstat_calls].
      replace (qstat_calls w + 1 + n) with (qstat_calls w + S n) by lia.
      exact Hr.
    + exists w'. split; [exact Hw'|]. cbn [asked qstat_calls] in Hc. lia.
Qed.

(** X20. What [wait_job_start] returns: [True] exactly when it was asked to
    ([return_True]) and the job shows state [r] in the last listing read,
    [None] otherwise; at least two queries have been made, one by the loop
    and one by the test that follows it. *)
Theorem wait_job_start_answer (fuel : nat) (job_id : string)
    (return_True : bool) (w w' : world) (r : option bool) :
  plain_id job_id = true ->
  wait_job_start qstat_output render stdout_write fuel job_id return_True w
  = (Ok r, w') ->
  qstat_calls w + 2 <= qstat_calls w' /\
  (r = Some true \/ r = None) /\
  (r = Some true <->
   return_True = true /\
   followed_by (chars job_id) (chars "r")
               (chars (qstat_output (qstat_calls w' - 1)))).
Proof.
  intros _ H. unfold wait_job_start in H.
  apply bind_Ok in H as (u1 & w1 & H1 & H).
  apply bind_Ok in H as (u2 & w2 & H2 & H).
  rewrite (bind_run _ _ _ _ _ (check_job_running_run job_id w2)) in H.
  apply wait_job_start_loop_asks in H2.
  injection H1 as _ <-. cbn [qstat_calls] in H2.
  pose proof (desired_findall_iff job_id "r"
                (chars (qstat_output (qstat_calls w2)))) as Hiff.
  assert (Hrun : running_at qstat_output job_id (qstat_calls w2) = true <->
                 followed_by (chars job_id) (chars "r")
                             (chars (qstat_output (qstat_calls w2)))).
  { unfold running_at. rewrite negb_true_iff, bool_decide_eq_false.
    exact Hiff. }
  destruct (running_at qstat_output job_id (qstat_calls w2)).
  - erewrite bind_run in H by reflexivity.
    destruct return_True; injection H as <- <-; cbn [asked qstat_calls];
      replace (qstat_calls w2 + 1 - 1) with (qstat_calls w2) by lia;
      (split; [lia|]); (split; [auto|]).
    + split; [intros _; split; [reflexivity | apply Hrun; reflexivity]
             | reflexivity].
    + split; [discriminate | intros [? _]; discriminate].
  - injection H as <- <-. cbn [asked qstat_calls].
    replace (qstat_calls w2 + 1 - 1) with (qstat_calls w2) by lia.
    split; [lia|]. split; [auto|].
    split; [discriminate|]. intros [_ Hf]. apply Hrun in Hf. discriminate.
Qed.

(** X21. [wait_job_start] returns when the job starts and stays started:
    if the job first shows state [r] in the [n]-th listing from now, shows it
    in the next one too, and the loop may run [n] times, the call returns
    after [n + 2] queries, [True] if asked to and [None] if not. *)
Theorem wait_job_start_returns (n fuel : nat) (job_id : string)
    (return_True : bool) (w : world) :
  plain_id job_id = true ->
  n <= fuel ->
  (forall k, qstat_calls w <= k < qstat_calls w + n ->
     ~ followed_by (chars job_id) (chars "r") (chars (qstat_output k))) ->
  (forall k, qstat_calls w + n <= k <= qstat_calls w + S n ->
     followed_by (chars job_id) (chars "r") (chars (qstat_output k))) ->
  exists w',
    wait_job_start qstat_output render stdout_write fuel job_id return_True w
    = (Ok (if return_True then Some true else None), w') /\
    qstat_calls w' = qstat_calls w + n + 2.
Proof.
  intros _ Hn Hk Hr. unfold wait_job_start.
  erewrite bind_run by reflexivity.
  destruct (wait_job_start_loop_ends n job_id fuel
              (World (qstat_calls w) (table w) (heap w) (jobs_list w)
                 (trace w ++ [EvLog LDebug (render WaitingForJob)])) Hn Hk)
    as (w2 & H2 & Hc).
  { apply Hr. cbn [qstat_calls]. lia. }
  rewrite (bind_run _ _ _ _ _ H2).
  rewrite (bind_run _ _ _ _ _ (check_job_running_run job_id w2)).
  cbn [qstat_calls] in Hc.
  assert (Hrun : running_at qstat_output job_id (qstat_calls w2) = true).
  { unfold running_at. apply negb_true_iff, bool_decide_eq_false_2.
    apply desired_findall_iff, Hr. lia. }
  rewrite Hrun. erewrite bind_run by reflexivity.
  destruct return_True; (eexists; split; [reflexivity|]);
    cbn [asked qstat_calls]; lia.
Qed.

End WaitingProperties.

(** ** What [old_job_monitor] keeps *)

Section OldMonitorFrame.

Variable qstat_output : nat -> string.
Variable logger : old_level -> old_message -> event.
Variable R : relation world.
Hypothesis R_refl : forall w, R w w.
Hypothesis R_trans : forall a b c, R a b -> R b c -> R a c.
Hypothesis R_emit : forall e, (forall c, e <> EvCancel c) -> keeps R (emit e).
Hypothesis R_log : forall l m, keeps R (emit (logger l m)).
Hypothesis R_qstat : keeps R (qstat qstat_output).
Hypothesis R_write :
  forall h j j', id j' = id j -> forall w, heap w !! h = Some j ->
    R w (snd (write h j' w)).
Hypothesis R_table : forall s, keeps R (get_state_shared s).

Lemma keeps_comprehension {A B : Type} (f : A -> M B) (l : list A) :
  (forall x, keeps R (f x)) -> keeps R (comprehension f l).
Proof.
  intros Hf. induction l as [|x l IH]; cbn [comprehension].
  - apply keeps_ret, R_refl.
  - apply keeps_bind; [exact R_trans | apply Hf | intros y].
    apply keeps_bind; [exact R_trans | exact IH | intros r].
    apply keeps_ret, R_refl.
Qed.

Lemma keeps_running (self : handle) : keeps R (running qstat_output self).
Proof.
  unfold running.
  apply keeps_bind; [exact R_trans | apply keeps_update; assumption | intros _].
  apply keeps_bind; [exact R_trans | apply keeps_read, R_refl | intros j].
  apply keeps_getattr, R_refl.
Qed.

Ltac old_step :=
  first
    [ apply keeps_comprehension; intros ?
    | apply keeps_running
    | apply keeps_present; assumption
    | apply keeps_bind; [exact R_trans | | intros ?]
    | apply keeps_ret; exact R_refl
    | apply keeps_diverge; exact R_refl
    | apply keeps_get_jobs; exact R_refl
    | apply R_log
    | apply R_emit; intros; discriminate
    | match goal with
      | |- keeps _ (if ?b then _ else _) => destruct b
      end ].

Lemma keeps_old_wait_start (fuel : nat) (jobs : list handle) :
  keeps R (old_wait_start qstat_output logger fuel jobs).
Proof.
  induction fuel as [|fuel IH]; cbn [old_wait_start];
    repeat first [ exact IH | old_step ].
Qed.

Lemma keeps_old_wait_finish (fuel : nat) (jobs : list handle) :
  keeps R (old_wait_finish qstat_output fuel jobs).
Proof.
  induction fuel as [|fuel IH]; cbn [old_wait_finish];
    repeat first [ exact IH | old_step ].
Qed.

Lemma keeps_old_job_monitor (fuel : nat) :
  keeps R (old_job_monitor qstat_output logger fuel).
Proof.
  unfold old_job_monitor.
  repeat first [ apply keeps_old_wait_start | apply keeps_old_wait_finish
               | old_step ].
Qed.

End OldMonitorFrame.

(** ** [old_job_monitor] on a queue the jobs have left *)






Section OldMonitorGone.

Variable qstat_output : nat -> string.
Variable logger : old_level -> old_message -> event.
Hypothesis listing_not_empty : forall k, qstat_output k <> "".

Ltac run_step tac :=
  erewrite bind_run by tac;
  cbn [qstat_calls table heap jobs_list trace id qstat_stdout entry status
       state is_running is_error is_present refreshed getattr].









End OldMonitorGone.

Section OldMonitorKeeps.

Variable qstat_output : nat -> string.
Variable logger : old_level -> old_message -> event.

(** X23. Whatever the listings and however the call ends, [old_job_monitor]
    leaves the caller's list as it is, where [monitor_jobs] empties it, and
    creates and deletes no [Job] object and changes no identifier. *)
Theorem old_job_monitor_leaves_list (fuel : nat) (w : world) :
  jobs_list (old_job_monitor qstat_output logger fuel w).2 = jobs_list w /\
  forall h,
    id <$> heap (old_job_monitor qstat_output logger fuel w).2 !! h
    = id <$> heap w !! h.
Proof.
  split.
  - apply (keeps_old_job_monitor qstat_output logger same_jobs);
      frame_solve.
  - intros h. revert h.
    apply (keeps_old_job_monitor qstat_output logger same_ids);
      unfold keeps, same_ids.
    + reflexivity.
    + intros a b c H1 H2 h. rewrite H2. apply H1.
    + reflexivity.
    + reflexivity.
    + reflexivity.
    + intros h j j' Hid w0 Hh h'. unfold write. cbn [snd heap].
      destruct (decide (h = h')) as [<-|Hne].
      * rewrite lookup_insert_eq, Hh. simpl. congruence.
      * rewrite lookup_insert_ne by exact Hne. reflexivity.
    + intros s w0 h. unfold get_state_shared.
      destruct (get_state s (table w0)). reflexivity.
Qed.

(** X24. With a logger whose records are no cancellations,
    [old_job_monitor] hands no command to the cancellation collaborator,
    whatever the listings and however the call ends: it only adds events to
    the trace, none of them a cancellation. *)
Theorem old_job_monitor_never_cancels (fuel : nat) (w : world) :
  (forall l m c, logger l m <> EvCancel c) ->
  exists evs,
    trace (old_job_monitor qstat_output logger fuel w).2 = trace w ++ evs /\
    cancels evs = [].
Proof.
  intros Hlog.
  apply (keeps_old_job_monitor qstat_output logger no_cancel).
  - apply no_cancel_refl.
  - apply no_cancel_trans.
  - apply no_cancel_emit.
  - intros l m. apply no_cancel_emit. apply Hlog.
  - intros w0. exists [EvQstat (qstat_calls w0)]. split; reflexivity.
  - intros h j j' _ w0 _. apply no_cancel_same_trace. reflexivity.
  - intros s w0. apply no_cancel_same_trace. unfold get_state_shared.
    destruct (get_state s (table w0)). reflexivity.
Qed.

End OldMonitorKeeps.

(** ** The poll cycle and the arguments of [monitor_jobs] *)

(** X25. A poll cycle ends: the [for] loop over the list, which the cycle
    itself shortens, runs at most once per handle the list holds when the
    cycle starts, whatever the listings. *)
Theorem poll_cycle_never_diverges (qstat_output : nat -> string)
    (err_jobs : list handle) (w : world) :
  (poll_cycle qstat_output err_jobs w).1 <> Diverge.
Proof. apply poll_cycle_returns. Qed.

(** X26. [monitor_jobs] reports an argument it cannot monitor and returns at
    once: [None], an empty list, an object that is sized but no list, or a
    false object. No query is made, no job is cancelled and the list is left
    alone; the trace gains the one record, at level error. *)
Theorem monitor_jobs_reports_invalid (qstat_output : nat -> string)
    (fuel : nat) (kill_err : bool) (w : world) (jobs : pyvalue) :
  jobs = PyNone \/ (jobs = PyList /\ jobs_list w = []) \/
  (exists t n, jobs = PyOther t (Some n)) \/ (exists l, jobs = PyOther false l) ->
  exists m,
    (m = NoJobsToMonitor \/ m = JobsNotAList) /\
    monitor_jobs qstat_output fuel jobs kill_err w
    = (Ok tt, World (qstat_calls w) (table w) (heap w) (jobs_list w)
                    (trace w ++ [EvLog LError m])).
Proof. apply monitor_jobs_rejects. Qed.

(** ** The theorems on the scenarios *)

Lemma get_job_ID_name_qsub_answer_witness :
  "1245023" <> "" /\ no_space "1245023" /\ no_space "python" /\
  get_job_ID_name (qsub_answer "1245023" "python") = Ok ("1245023", "python").
Proof.
  assert (h1 : "1245023" <> "") by discriminate.
  assert (h2 : no_space "1245023") by (cbv; repeat constructor).
  assert (h3 : no_space "python") by (cbv; repeat constructor).
  exact (conj h1 (conj h2 (conj h3
           (get_job_ID_name_qsub_answer "1245023" "python" h1 h2 h3)))).
Defined.

Lemma check_job_absent_by_substring_witness :
  let w := cohort ["101"; "102"] in
  plain_id "10" = true /\ "10" <> "" /\
  exists b,
    check_job_absent only_102 "10" w
    = (Ok b, World (S (qstat_calls w)) (table w) (heap w) (jobs_list w)
                   (trace w ++ [EvQstat (qstat_calls w)])) /\
    (b = false <-> occurs (chars "10") (chars (only_102 (qstat_calls w)))).
Proof.
  assert (h1 : plain_id "10" = true) by reflexivity.
  assert (h2 : "10" <> "") by discriminate.
  exact (conj h1 (conj h2
           (check_job_absent_by_substring only_102 "10"
              (cohort ["101"; "102"]) h1 h2))).
Defined.

Lemma check_job_status_by_line_witness :
  let w := cohort ["101"; "102"] in
  plain_id "102" = true /\ plain_id "r" = true /\
  exists b,
    check_job_status only_102 "102" "r" w
    = (Ok b, World (S (qstat_calls w)) (table w) (heap w) (jobs_list w)
                   (trace w ++ [EvQstat (qstat_calls w)])) /\
    (b = true <->
     followed_by (chars "102") (chars "r") (chars (only_102 (qstat_calls w)))).
Proof.
  assert (h1 : plain_id "102" = true) by reflexivity.
  assert (h2 : plain_id "r" = true) by reflexivity.
  exact (conj h1 (conj h2
           (check_job_status_by_line only_102 "102" "r"
              (cohort ["101"; "102"]) h1 h2))).
Defined.

Lemma get_job_status_or_raise_witness :
  let w := cohort ["101"; "102"] in
  let snapshot := listing [("102", "r")] in
  plain_id "101" = true /\ snapshot <> "" /\
  exists r,
    get_job_status only_102 "101" (Some snapshot) w = (r, w) /\
    (~ occurs (chars "101") (chars snapshot) -> r = Raise AttributeError) /\
    (forall t, r = Ok t ->
       exists tok pre mid b,
         t = Some (text tok) /\
         chars snapshot = pre ++ chars "101" ++ mid ++ b /\
         token_at b tok).
Proof.
  assert (h1 : plain_id "101" = true) by reflexivity.
  assert (h2 : listing [("102", "r")] <> "")
    by (intros H; vm_compute in H; discriminate H).
  exact (conj h1 (conj h2
           (get_job_status_or_raise only_102 "101" (listing [("102", "r")])
              (cohort ["101"; "102"]) h1 h2))).
Defined.





Lemma stuck_jobs_from_cohort_witness :
  let w := cohort ["101"; "102"] in
  let w' := (monitor_loop stuck_101 5 w).2 in
  monitor_loop stuck_101 5 w = (Ok [0], w') /\
  [0] ⊆+ jobs_list w /\ (NoDup (jobs_list w) -> NoDup [0]).
Proof.
  assert (h1 : monitor_loop stuck_101 5 (cohort ["101"; "102"])
               = (Ok [0], (monitor_loop stuck_101 5 (cohort ["101"; "102"])).2))
    by (vm_compute; reflexivity).
  exact (conj h1 (stuck_jobs_from_cohort stuck_101 5 _ _ _ h1)).
Defined.

Lemma monitor_jobs_reports_invalid_witness :
  let w := cohort ["101"; "102"] in
  (PyNone = PyNone \/ (PyNone = PyList /\ jobs_list w = []) \/
   (exists t n, PyNone = PyOther t (Some n)) \/
   (exists l, PyNone = PyOther false l)) /\
  exists m,
    (m = NoJobsToMonitor \/ m = JobsNotAList) /\
    monitor_jobs only_102 5 PyNone true w
    = (Ok tt, World (qstat_calls w) (table w) (heap w) (jobs_list w)
                    (trace w ++ [EvLog LError m])).
Proof.
  assert (h1 : PyNone = PyNone
               \/ (PyNone = PyList /\ jobs_list (cohort ["101"; "102"]) = [])
               \/ (exists t n, PyNone = PyOther t (Some n))
               \/ (exists l, PyNone = PyOther false l))
    by (left; reflexivity).
  exact (conj h1
           (monitor_jobs_reports_invalid only_102 5 true
              (cohort ["101"; "102"]) PyNone h1)).
Defined.

Lemma find_entries_iff_listed_witness :
  plain_id "102" = true /\
  (find_entries "102" (listing [("102", "r")]) <> [] <->
   listed_first (chars "102") (chars (listing [("102", "r")]))).
Proof.
  assert (h1 : plain_id "102" = true) by reflexivity.
  exact (conj h1 (find_entries_iff_listed "102" (listing [("102", "r")]) h1)).
Defined.

Lemma get_job_ID_name_blank_witness :
  all_in PyRe.CSpace (chars "   ") /\
  get_job_ID_name "   " = Raise IndexError.
Proof.
  assert (h1 : all_in PyRe.CSpace (chars "   "))
    by (cbv; repeat constructor).
  exact (conj h1 (get_job_ID_name_blank "   " h1)).
Defined.

Lemma get_job_ID_name_fields_witness :
  get_job_ID_name "Your job 1245023 python" = Ok ("1245023", "python") /\
  "1245023" <> "" /\ no_space "1245023" /\ no_space "python".
Proof.
  assert (h1 : get_job_ID_name "Your job 1245023 python"
               = Ok ("1245023", "python")) by (vm_compute; reflexivity).
  exact (conj h1 (get_job_ID_name_fields _ _ _ h1)).
Defined.





Lemma old_job_monitor_never_cancels_witness :
  let w := cohort ["101"; "102"] in
  (forall l m c, sample_logger l m <> EvCancel c) /\
  exists evs,
    trace (old_job_monitor only_102 sample_logger 3 w).2 = trace w ++ evs /\
    cancels evs = [].
Proof.
  assert (h1 : forall l m c, sample_logger l m <> EvCancel c)
    by (intros l m c; discriminate).
  exact (conj h1
           (old_job_monitor_never_cancels only_102 sample_logger 3
              (cohort ["101"; "102"]) h1)).
Defined.

Lemma only_102_running (k : nat) : round_running only_102 k ["102"].
Proof.
  intros [|n] i Hn; [|destruct n; discriminate Hn].
  injection Hn as <-. apply desired_findall_iff. vm_compute. discriminate.
Defined.

Lemma only_102_absent (k : nat) : round_absent only_102 k ["101"].
Proof.
  intros [|n] i Hn; [|destruct n; discriminate Hn].
  injection Hn as <-. intros H.
  apply (listed_findall_iff "101") in H; [|discriminate].
  apply H. vm_compute. reflexivity.
Defined.

Lemma wait_all_jobs_start_unbound_witness :
  let w := cohort [] in
  plain_ids ["102"] /\
  round_running only_102 (qstat_calls w) ["102"] /\
  exists w',
    wait_all_jobs_start only_102 sample_render sample_console sample_clock 3
                        ["102"] w
    = (Ok UnboundLocalError, w') /\
    qstat_calls w' = qstat_calls w + length ["102"].
Proof.
  assert (h1 : plain_ids ["102"])
    by (repeat constructor; discriminate).
  exact (conj h1 (conj (only_102_running _)
           (wait_all_jobs_start_unbound only_102 sample_render sample_console
              sample_clock 3 ["102"] (cohort []) h1 (only_102_running _)))).
Defined.

Lemma wait_all_jobs_finished_true_witness :
  let w := cohort [] in
  let w' := (wait_all_jobs_finished only_102 sample_render sample_console
               sample_clock 0 ["101"] w).2 in
  plain_ids ["101"] /\
  wait_all_jobs_finished only_102 sample_render sample_console sample_clock 0
                         ["101"] w = (Ok true, w') /\
  length ["101"] <= qstat_calls w' /\
  round_absent only_102 (qstat_calls w' - length ["101"]) ["101"].
Proof.
  assert (h1 : plain_ids ["101"])
    by (repeat constructor; discriminate).
  assert (h2 : wait_all_jobs_finished only_102 sample_render sample_console
                 sample_clock 0 ["101"] (cohort [])
               = (Ok true,
                  (wait_all_jobs_finished only_102 sample_render
                     sample_console sample_clock 0 ["101"] (cohort [])).2))
    by (vm_compute; reflexivity).
  exact (conj h1 (conj h2
           (wait_all_jobs_finished_true only_102 sample_render sample_console
              sample_clock 0 ["101"] _ _ h1 h2))).
Defined.

Lemma wait_all_jobs_finished_quiet_witness :
  let w := cohort [] in
  plain_ids ["101"] /\
  round_absent only_102 (qstat_calls w) ["101"] /\
  round_absent only_102 (qstat_calls w + length ["101"]) ["101"] /\
  exists w',
    wait_all_jobs_finished only_102 sample_render sample_console sample_clock
                           0 ["101"] w = (Ok true, w') /\
    qstat_calls w' = qstat_calls w + 2 * length ["101"] /\
    Forall (fun e => forall n, e <> EvSleep n)
           (drop (length (trace w)) (trace w')).
Proof.
  assert (h1 : plain_ids ["101"])
    by (repeat constructor; discriminate).
  exact (conj h1 (conj (only_102_absent _) (conj (only_102_absent _)
           (wait_all_jobs_finished_quiet only_102 sample_render sample_console
              sample_clock 0 ["101"] (cohort []) h1
              (only_102_absent _) (only_102_absent _))))).
Defined.

Lemma wait_job_start_answer_witness :
  let w := cohort [] in
  let w' := (wait_job_start starts_later sample_render sample_console 3 "102"
               true w).2 in
  plain_id "102" = true /\
  wait_job_start starts_later sample_render sample_console 3 "102" true w
  = (Ok (Some true), w') /\
  qstat_calls w + 2 <= qstat_calls w' /\
  (Some true = Some true \/ Some true = None) /\
  (Some true = Some true <->
   true = true /\
   followed_by (chars "102") (chars "r")
               (chars (starts_later (qstat_calls w' - 1)))).
Proof.
  assert (h1 : plain_id "102" = true) by reflexivity.
  assert (h2 : wait_job_start starts_later sample_render sample_console 3
                 "102" true (cohort [])
               = (Ok (Some true),
                  (wait_job_start starts_later sample_render sample_console 3
                     "102" true (cohort [])).2))
    by (vm_compute; reflexivity).
  exact (conj h1 (conj h2
           (wait_job_start_answer starts_later sample_render sample_console 3
              "102" true _ _ _ h1 h2))).
Defined.

Lemma starts_later_waits :
  forall k, qstat_calls (cohort []) <= k < qstat_calls (cohort []) + 1 ->
    ~ followed_by (chars "102") (chars "r") (chars (starts_later k)).
Proof.
  intros k Hk H. assert (k = 0) as -> by (cbn in Hk; lia).
  apply desired_findall_iff in H. apply H. vm_compute. reflexivity.
Defined.

Lemma starts_later_runs :
  forall k, qstat_calls (cohort []) + 1 <= k <= qstat_calls (cohort []) + 2 ->
    followed_by (chars "102") (chars "r") (chars (starts_later k)).
Proof.
  intros k Hk. apply desired_findall_iff.
  destruct k as [|k]; [cbn in Hk; lia|]. vm_compute. discriminate.
Defined.

Lemma wait_job_start_returns_witness :
  let w := cohort [] in
  plain_id "102" = true /\
  1 <= 3 /\
  (forall k, qstat_calls w <= k < qstat_calls w + 1 ->
     ~ followed_by (chars "102") (chars "r") (chars (starts_later k))) /\
  (forall k, qstat_calls w + 1 <= k <= qstat_calls w + 2 ->
     followed_by (chars "102") (chars "r") (chars (starts_later k))) /\
  exists w',
    wait_job_start starts_later sample_render sample_console 3 "102" true w
    = (Ok (Some true), w') /\
    qstat_calls w' = qstat_calls w + 1 + 2.
Proof.
  assert (h1 : plain_id "102" = true) by reflexivity.
  assert (h2 : 1 <= 3) by lia.
  exact (conj h1 (conj h2 (conj starts_later_waits (conj starts_later_runs
           (wait_job_start_returns starts_later sample_render sample_console
              1 3 "102" true (cohort []) h1 h2
              starts_later_waits starts_later_runs))))).
Defined.

(** ** Whitespace beyond the blank and the line ends

    The unit separator (character 31) is whitespace for [\s] and for
    [str.split()]: it ends an identifier in a listing and a field in the
    answer of [qsub]. *)

Example unit_separator_ends_identifier :
  let us := String (ascii_of_nat 31) "" in
  let snapshot := "102" +:+ us +:+ "r" +:+ us +:+ nl in
  find_entries "102" snapshot = ["102" +:+ us +:+ "r" +:+ us] /\
  (check_job_status (fun _ => snapshot) "102" "r" (cohort [])).1 = Ok true /\
  (get_job_status (fun _ => snapshot) "102" (Some snapshot) (cohort [])).1
  = Ok (Some "r").
Proof. vm_compute. repeat split. Qed.

Example unit_separator_splits_name :
  let us := String (ascii_of_nat 31) "" in
  get_job_ID_name (qsub_answer "7" ("a" +:+ us +:+ "b")) = Ok ("7", "a").
Proof. vm_compute. reflexivity. Qed.
